(** * FileUtils: duplicate-file finder (fileUtils.h, fileUtils.cpp, main.cpp)

    A shallow embedding of the three translation units and the properties of
    the size index, the growing-buffer comparator and the clustering loop.

    - file contents are [list byte]; a [FILE*] is a stream value holding the
      unread bytes and the end-of-file indicator;
    - [int] is a 32-bit two's-complement integer carried in [Z], [unsigned int]
      and [uintmax_t] values are carried in [N];
    - [std::unordered_map<int, std::vector<std::string>>] is a [gmap Z (list string)],
      [std::set<int>] a [gset Z] iterated in ascending order, and
      [std::set<std::string>] a [gset string];
    - the effects (standard streams, open stdio handles, and an observation
      trace of what the code did) are threaded through a state monad; the
      [double] accumulator of [PrintMapStats] is carried as an exact rational;
    - the directory tree is what [boost::filesystem] reports: for every entry
      its path, whether it is a directory or a regular file, and the
      [file_size] of a regular file; the root may also be missing, or be
      there without being a directory that can be listed, in which case
      [boost::filesystem] throws; a [boost::filesystem::path] is printed
      quoted, as its [operator<<] does;
    - memory ([new], [delete[]]) and I/O errors below the root other than a
      failing [fopen] are not modelled: every sub-directory met can be
      listed and every [file_size] succeeds. *)

From Stdlib Require Import ZArith NArith QArith Qcanon Lia Ascii.
From stdpp Require Import base option list strings gmap sorting.

Set Warnings "-clear-no-such-hyp".

Local Open Scope N_scope.
Local Open Scope Z_scope.
Local Open Scope nat_scope.

(** ** Bytes, streams and the process state *)

Abbreviation byte := Byte.byte.

Definition byte_eq_dec_inst : EqDecision byte := Byte.byte_eq_dec.
#[global] Existing Instance byte_eq_dec_inst.

(** What the program writes with [operator<<]. *)
Inductive token :=
| Str (s : string)
| Num (z : Z)
| Dbl (q : Qc)
| Endl.

(** What the program did, in order; kept beside the real effects so that
    statements about "which pairs were compared" or "how many reads" can be
    made. *)
Inductive event :=
| EvCompare (file1 file2 : string)          (* entry of [CompareFiles] *)
| EvRead (path : string) (requested transferred : N)   (* one [fread] *)
| EvInsert (path : string)                  (* [existing_matches.insert] *)
| EvCluster (members : list string).        (* a cluster closed by [" ]"] *)

#[global] Instance token_eq_dec : EqDecision token.
Proof. solve_decision. Defined.
#[global] Instance event_eq_dec : EqDecision event.
Proof. solve_decision. Defined.

(** A stdio stream: the path it was opened on, the bytes not yet read and the
    end-of-file indicator tested by [feof]. *)
Record FILE := mkFILE {
  f_path : string;
  f_rest : list byte;
  f_eof : bool
}.

Record world := World {
  files : gmap string (list byte);   (* files [fopen(..., "rb")] can open *)
  handles : list string;             (* streams opened and not yet closed *)
  cout : list token;
  cerr : list token;
  trace : list event
}.

(** State monad over [world]; [None] is reserved for a loop of the model that
    ran out of fuel. *)
Definition M (A : Type) : Type := world → option (A * world).

#[global] Instance M_ret : MRet M := λ A x w, Some (x, w).
#[global] Instance M_bind : MBind M := λ A B f m w,
  match m w with
  | Some (x, w') => f x w'
  | None => None
  end.

Definition out_of_fuel {A} : M A := λ _, None.

Definition modify (f : world → world) : M unit := λ w, Some (tt, f w).

Definition print_cout (ts : list token) : M unit :=
  modify (λ w, World (files w) (handles w) (cout w ++ ts) (cerr w) (trace w)).

Definition print_cerr (ts : list token) : M unit :=
  modify (λ w, World (files w) (handles w) (cout w) (cerr w ++ ts) (trace w)).

Definition log (e : event) : M unit :=
  modify (λ w, World (files w) (handles w) (cout w) (cerr w) (trace w ++ [e])).

(** Remove one occurrence of [p]. *)
Fixpoint remove_first (p : string) (l : list string) : list string :=
  match l with
  | [] => []
  | q :: l' => if decide (p = q) then l' else q :: remove_first p l'
  end.

(** [fopen(path, "rb")]: [None] is the [NULL] result. *)
Definition fopen (path : string) : M (option FILE) := λ w,
  match files w !! path with
  | Some data =>
      Some (Some (mkFILE path data false),
            World (files w) (path :: handles w) (cout w) (cerr w) (trace w))
  | None => Some (None, w)
  end.

Definition fclose (f : FILE) : M unit :=
  modify (λ w, World (files w) (remove_first (f_path f) (handles w))
                     (cout w) (cerr w) (trace w)).

(** [new char[size]()]: [size] zero bytes. *)
Definition new_block (size : N) : list byte := replicate (N.to_nat size) Byte.x00.

(** [fread(block, 1, size, f)]: the bytes available (at most [size]) overwrite
    the start of [block]; a short read sets the end-of-file indicator. *)
Definition fread (block : list byte) (size : N) (f : FILE) : M (list byte * FILE) :=
  let got := take (N.to_nat size) (f_rest f) in
  let f' := mkFILE (f_path f) (drop (N.to_nat size) (f_rest f))
                   (f_eof f || bool_decide (length got < N.to_nat size)) in
  log (EvRead (f_path f) size (N.of_nat (length got)));;
  mret (got ++ drop (length got) block, f').

(** [feof(f)]: non-zero once the indicator is set. *)
Definition feof (f : FILE) : Z := if f_eof f then 1%Z else 0%Z.

(** [memcmp(b1, b2, n)] on unsigned bytes: the sign of the first difference
    within the first [n] bytes. *)
Fixpoint memcmp_list (b1 b2 : list byte) : Z :=
  match b1, b2 with
  | x :: b1', y :: b2' =>
      if decide (x = y) then memcmp_list b1' b2'
      else if (Byte.to_N x <? Byte.to_N y)%N then (-1)%Z else 1%Z
  | _, _ => 0%Z
  end.

Definition memcmp (b1 b2 : list byte) (n : N) : Z :=
  memcmp_list (take (N.to_nat n) b1) (take (N.to_nat n) b2).

(** ** fileUtils.h: the class *)

Definition MAX_PASS : N := 6.

Definition BUFFER_SIZE : list N := [64; 255; 4096; 65535; 16777215; 268435456]%N.

Record FileUtils := mkFileUtils {
  file_map : gmap Z (list string);
  map_built : bool;
  matching_keys : gset Z
}.

(** The constructor: [map_built(false)], empty containers. *)
Definition FileUtils_new : FileUtils := mkFileUtils ∅ false ∅.

(** ** fileUtils.cpp: CompareFiles *)

(** The [do { ... } while (...)] loop.  [size] and [pass] are the locals of the
    same name. *)
Fixpoint CompareFiles_loop (fuel : nat) (if1 if2 : FILE) (size pass : N) : M bool :=
  match fuel with
  | O => out_of_fuel
  | S fuel' =>
      let '(size, pass) :=
        if (pass <? MAX_PASS)%N
        then (default 0%N (BUFFER_SIZE !! N.to_nat pass), (pass + 1)%N)
        else (size, pass) in
      '(block1, if1) ← fread (new_block size) size if1;
      '(block2, if2) ← fread (new_block size) size if2;
      if negb (memcmp block1 block2 size =? 0)%Z then
        fclose if1;; fclose if2;; mret false
      else if (feof if1 =? 0)%Z && (feof if2 =? 0)%Z then
        CompareFiles_loop fuel' if1 if2 size pass
      else
        fclose if1;; fclose if2;; mret true
  end.

Definition CompareFiles (file1 file2 : string) : M bool :=
  log (EvCompare file1 file2);;
  if1 ← fopen file1;
  if2 ← fopen file2;
  match if1 with
  | None => print_cout [Str "Could not open: "; Str file1; Endl];; mret false
  | Some if1 =>
      match if2 with
      | None => print_cout [Str "Could not open: "; Str file2; Endl];; mret false
      | Some if2 =>
          CompareFiles_loop (S (length (f_rest if1))) if1 if2 0 0
      end
  end.

(** ** fileUtils.cpp: CompareMatchingKeys *)

(** [for(j=i+1; j!=curr.end(); j++)]: [js] are the paths after [i].  The
    locals [existing_matches], [first_match] and [match_found] are threaded;
    [printed] collects the paths written since the opening ["[ "]. *)
Fixpoint CompareMatchingKeys_j (i : string) (js : list string)
    (existing_matches : gset string) (first_match match_found : bool)
    (printed : list string) : M (gset string * bool * bool * list string) :=
  match js with
  | [] => mret (existing_matches, first_match, match_found, printed)
  | j :: js' =>
      if decide (i ∈ existing_matches) then
        (* continue *)
        CompareMatchingKeys_j i js' existing_matches first_match match_found printed
      else
        same ← CompareFiles i j;
        if (same : bool) then
          '(first_match, match_found, printed) ←
            (if first_match then
               print_cout [Str "[ "; Str i; Str ","; Endl; Str "  "; Str j];;
               mret (false, true, [i; j])
             else
               print_cout [Str ", "; Endl; Str "  "; Str j];;
               mret (first_match, match_found, printed ++ [j]));
          log (EvInsert j);;
          CompareMatchingKeys_j i js' ({[j]} ∪ existing_matches)
                                first_match match_found printed
        else
          CompareMatchingKeys_j i js' existing_matches first_match match_found printed
  end.

(** [for(i=curr.begin(); i!=curr.end(); i++)]. *)
Fixpoint CompareMatchingKeys_i (curr : list string) (existing_matches : gset string)
    : M (gset string) :=
  match curr with
  | [] => mret existing_matches
  | i :: rest =>
      '(existing_matches, _, match_found, printed) ←
        CompareMatchingKeys_j i rest existing_matches true false [];
      existing_matches ←
        (if (match_found : bool) then
           print_cout [Str " ]"; Endl; Endl];;
           log (EvCluster printed);;
           log (EvInsert i);;
           mret ({[i]} ∪ existing_matches)
         else mret existing_matches);
      CompareMatchingKeys_i rest existing_matches
  end.

(** [for(auto& x : matching_keys)]; [file_map[x]] default-constructs a missing
    bucket. *)
Fixpoint CompareMatchingKeys_x (keys : list Z) (this : FileUtils)
    (existing_matches : gset string) : M (FileUtils * gset string) :=
  match keys with
  | [] => mret (this, existing_matches)
  | x :: keys' =>
      let curr := default [] (file_map this !! x) in
      let this := mkFileUtils (<[x := curr]> (file_map this))
                              (map_built this) (matching_keys this) in
      existing_matches ← CompareMatchingKeys_i curr existing_matches;
      CompareMatchingKeys_x keys' this existing_matches
  end.

(** Iteration order of [std::set<int>]: ascending. *)
Definition set_iteration (s : gset Z) : list Z := merge_sort Z.le (elements s).

Definition CompareMatchingKeys (this : FileUtils) : M FileUtils :=
  print_cout [Str "Matching Files: \n"];;
  '(this, _) ← CompareMatchingKeys_x (set_iteration (matching_keys this)) this ∅;
  mret this.

(** ** fileUtils.cpp: BuildFileMap *)

(** What a [directory_iterator] yields: the entry's path as
    [itr->path().string()] and what [status()] and [file_size] report. *)
#[local] Unset Elimination Schemes.
Inductive dirent :=
| RegularFile (path : string) (size : N)
| Directory (path : string) (entries : list dirent)
| OtherEntry (path : string).
#[local] Set Elimination Schemes.

(** Conversion of an integer value to [int]. *)
Definition to_int (z : Z) : Z := ((z + 2 ^ 31) mod 2 ^ 32 - 2 ^ 31)%Z.

(** The regular-file branch: [int size = file_size(...)], the [push_back] and
    the insertion into [matching_keys]. *)
Definition BuildFileMap_file (path : string) (fsize : N) (this : FileUtils) : FileUtils :=
  let size := to_int (Z.of_N fsize) in
  let file_map' :=
    <[size := default [] (file_map this !! size) ++ [path]]> (file_map this) in
  if bool_decide (1 < length (default [] (file_map' !! size))) then
    mkFileUtils file_map' (map_built this) ({[size]} ∪ matching_keys this)
  else
    mkFileUtils file_map' (map_built this) (matching_keys this).

(** One step of the [for] loop over a directory.  The recursive call on a
    sub-directory (which exists, having just been listed) runs the loop over
    its entries and then sets [map_built = true]. *)
Fixpoint BuildFileMap_entry (this : FileUtils) (itr : dirent) : FileUtils :=
  match itr with
  | Directory _ sub =>
      let this := foldl BuildFileMap_entry this sub in
      mkFileUtils (file_map this) true (matching_keys this)
  | RegularFile path fsize => BuildFileMap_file path fsize this
  | OtherEntry _ => this
  end.

Definition BuildFileMap_entries (entries : list dirent) (this : FileUtils) : FileUtils :=
  let this := foldl BuildFileMap_entry this entries in
  mkFileUtils (file_map this) true (matching_keys this).

(** How a call ends: it returns a value, or an exception leaves it. *)
Inductive completion (A : Type) :=
| Returned (a : A)
| Thrown.          (* a [boost::filesystem::filesystem_error] *)

Arguments Returned {A} a.
Arguments Thrown {A}.

(** What the file system holds at the path handed to [BuildFileMap]. *)
Inductive node :=
| Absent                           (* [exists(root)] is false *)
| Listing (entries : list dirent)  (* a directory, and what iterating it yields *)
| Inaccessible.    (* [exists] or the [directory_iterator] constructor throws:
                      a regular file, a directory that may not be read *)

(** [dir_path.c_str()]: the characters before the first NUL. *)
Fixpoint c_str (s : string) : string :=
  match s with
  | EmptyString => EmptyString
  | String c s' =>
      if Ascii.eqb c "000"%char then EmptyString else String c (c_str s')
  end.

(** [operator<<] of [boost::filesystem::path] writes the path through
    [boost::io::quoted]: between double quotes, with [&] put before every
    double quote and every [&] of the path. *)
Definition dquote : ascii := "034"%char.

Fixpoint quoted_chars (s : string) : string :=
  match s with
  | EmptyString => String dquote EmptyString
  | String c s' =>
      if Ascii.eqb c dquote || Ascii.eqb c "&"%char
      then String "&"%char (String c (quoted_chars s'))
      else String c (quoted_chars s')
  end.

Definition quoted (s : string) : string := String dquote (quoted_chars s).

(** [root] is what the file system holds at [dir_path].  On an [Inaccessible]
    root the exception is thrown before the object or a stream is touched. *)
Definition BuildFileMap (dir_path : string) (root : node)
    (this : FileUtils) : M (completion (bool * FileUtils)) :=
  match root with
  | Absent =>
      print_cerr [Str "Root directory"; Str (quoted (c_str dir_path));
                  Str "does not exist\n"];;
      mret (Returned (false, this))
  | Inaccessible => mret Thrown
  | Listing entries => mret (Returned (true, BuildFileMap_entries entries this))
  end.

(** ** fileUtils.cpp: PrintMapStats and FindDups *)

Definition Z2Qc (z : Z) : Qc := Q2Qc (inject_Z z).

(** [double] arithmetic is taken as exact. The order of [map_to_list] stands
    for the iteration order of the [unordered_map]. *)
Definition PrintMapStats_loop (l : list (Z * list string)) : Z * Qc :=
  foldl (λ '(num_files, total_size) x,
           (to_int (num_files + Z.of_nat (length x.2)),
            (total_size + (Z2Qc x.1 * Z2Qc (Z.of_nat (length x.2)))
                          / Z2Qc (Z.shiftl 1 20))%Qc))
        (0%Z, Z2Qc 0) l.

Definition PrintMapStats (this : FileUtils) : M unit :=
  let '(num_files, total_size) := PrintMapStats_loop (map_to_list (file_map this)) in
  print_cout [Str "-- Stats -- \n";
              Str "Number of files scanned: "; Num num_files; Endl;
              Str "Total data compared:     "; Dbl total_size; Str "MB"; Endl].

(** An exception of [BuildFileMap] is not caught here. *)
Definition FindDups (dir_path : string) (root : node)
    (this : FileUtils) : M (completion FileUtils) :=
  r ← BuildFileMap dir_path root this;
  match r with
  | Thrown => mret Thrown
  | Returned (_, this) =>
      this ← CompareMatchingKeys this;
      PrintMapStats this;;
      mret (Returned this)
  end.

(** ** main.cpp *)

Inductive outcome :=
| Exit (code : Z) (w : world)
| Undefined        (* [std::string] constructed from an absent [argv[1]] *)
| Aborted (w : world)  (* an exception nothing catches: [std::terminate] *)
| OutOfFuel.

(** [argv] holds [argv[0] .. argv[argc-1]]; [disk] resolves a directory path. *)
Definition main (argv : list string) (disk : string → node)
    (w : world) : outcome :=
  let argc := Z.of_nat (length argv) in
  let tools := FileUtils_new in
  match argv !! 1 with
  | None => Undefined
  | Some root =>
      if bool_decide (argc ≠ 2%Z) then
        match print_cerr [Str "Usage: file_utils <root_directory>\n"] w with
        | Some (_, w') => Exit 1 w'
        | None => OutOfFuel
        end
      else
        match FindDups root (disk root) tools w with
        | Some (Returned _, w') => Exit 0 w'
        | Some (Thrown, w') => Aborted w'
        | None => OutOfFuel
        end
  end.

(** ** Observations on a trace *)

Definition compared (tr : list event) : list (string * string) :=
  omap (λ e, match e with EvCompare a b => Some (a, b) | _ => None end) tr.

Definition clusters (tr : list event) : list (list string) :=
  omap (λ e, match e with EvCluster c => Some c | _ => None end) tr.

Definition reads (tr : list event) : list (string * N * N) :=
  omap (λ e, match e with EvRead p n k => Some (p, n, k) | _ => None end) tr.

(** The integers written to a stream. *)
Definition numbers (ts : list token) : list Z :=
  omap (λ t, match t with Num z => Some z | _ => None end) ts.

(** The boolean a call of [CompareFiles] returns in state [w]. *)
Definition verdict (w : world) (a b : string) : bool :=
  match CompareFiles a b w with
  | Some (r, _) => r
  | None => false
  end.

Definition bytes (s : string) : list byte := String.list_byte_of_string s.

Definition boot (fs : list (string * list byte)) : world :=
  World (list_to_map fs) [] [] [] [].

(** ** Functional summaries used to state results *)

(** [if(pass < MAX_PASS) size = BUFFER_SIZE[pass++];] *)
Definition next_size (size pass : N) : N * N :=
  if (pass <? MAX_PASS)%N
  then (default 0%N (BUFFER_SIZE !! N.to_nat pass), (pass + 1)%N)
  else (size, pass).

(** The block after [fread] on a stream with [rest] unread. *)
Definition filled (size : N) (rest : list byte) : list byte :=
  take (N.to_nat size) rest
    ++ drop (length (take (N.to_nat size) rest)) (new_block size).

(** The value the loop of [CompareFiles] returns on two streams with [r1] and
    [r2] unread and both end-of-file indicators clear. *)
Fixpoint rounds (fuel : nat) (r1 r2 : list byte) (size pass : N) : option bool :=
  match fuel with
  | O => None
  | S fuel' =>
      let '(size, pass) := next_size size pass in
      if negb (memcmp (filled size r1) (filled size r2) size =? 0)%Z then Some false
      else if bool_decide (N.to_nat size ≤ length r1)
              && bool_decide (N.to_nat size ≤ length r2)
           then rounds fuel' (drop (N.to_nat size) r1) (drop (N.to_nat size) r2) size pass
           else Some true
  end.

(** The value [CompareFiles a b] returns when the files are as in [fs]. *)
Definition Equal (fs : gmap string (list byte)) (a b : string) : bool :=
  match fs !! a, fs !! b with
  | Some da, Some db => default false (rounds (S (length da)) da db 0 0)
  | _, _ => false
  end.

(** The regular files in the order the walk meets them, with their sizes. *)
Fixpoint walk_entry (itr : dirent) : list (string * N) :=
  match itr with
  | Directory _ sub => flat_map walk_entry sub
  | RegularFile path fsize => [(path, fsize)]
  | OtherEntry _ => []
  end.

Definition walk (entries : list dirent) : list (string * N) :=
  flat_map walk_entry entries.

(** The [int] key [BuildFileMap] files a size under. *)
Definition key_of (fsize : N) : Z := to_int (Z.of_N fsize).

(** The paths of [fl] filed under key [k], in order. *)
Definition bucket_of (k : Z) (fl : list (string * N)) : list string :=
  (filter (λ e, key_of e.2 = k) fl).*1.

(** The clusters the [i] loop emits on a bucket when [same] is the
    comparator's verdict, and the matched set it leaves. *)
Fixpoint bucket_clusters (same : string → string → bool) (curr : list string)
    (existing_matches : gset string) : list (list string) * gset string :=
  match curr with
  | [] => ([], existing_matches)
  | i :: rest =>
      if decide (i ∈ existing_matches) then bucket_clusters same rest existing_matches
      else
        match filter (λ j, same i j = true) rest with
        | [] => bucket_clusters same rest existing_matches
        | ms =>
            let '(cs, em) :=
              bucket_clusters same rest
                ({[i]} ∪ (list_to_set ms ∪ existing_matches)) in
            ((i :: ms) :: cs, em)
        end
  end.


(** ** Vocabulary of the statements *)

(** The buffer schedule has a positive size from the first round on. *)
Definition schedule_ok (size pass : N) : Prop := (pass < MAX_PASS)%N ∨ (0 < size)%N.

Definition is_read (e : event) : Prop :=
  match e with EvRead _ _ _ => True | _ => False end.

(** Streams a call of [CompareFiles] leaves open, and what it writes. *)
Definition leaked (fs : gmap string (list byte)) (a b : string) : list string :=
  match fs !! a, fs !! b with
  | Some _, None => [a]
  | None, Some _ => [b]
  | _, _ => []
  end.

Definition complaint (fs : gmap string (list byte)) (a b : string) : list token :=
  match fs !! a, fs !! b with
  | None, _ => [Str "Could not open: "; Str a; Endl]
  | Some _, None => [Str "Could not open: "; Str b; Endl]
  | Some _, Some _ => []
  end.

(** [w'] is [w] after a stretch of the scan that compared the pairs [cs] and
    closed the clusters [ks]. *)
Record evolves (w w' : world) (cs : list (string * string))
    (ks : list (list string)) : Prop := mkEvolves {
  ev_files : files w' = files w;
  ev_cerr : cerr w' = cerr w;
  ev_compared : compared (trace w') = compared (trace w) ++ cs;
  ev_clusters : clusters (trace w') = clusters (trace w) ++ ks
}.

(** Locals of the [j] loop after the matches [ms], when [i] is unmatched. *)
Definition j_outcome (i : string) (ms : list string) (em : gset string)
    (fm mf : bool) (pr : list string) : gset string * bool * bool * list string :=
  match ms with
  | [] => (em, fm, mf, pr)
  | _ => (list_to_set ms ∪ em, false, if fm then true else mf,
          if fm then i :: ms else pr ++ ms)
  end.

(** The bucket of key [k]: what [file_map[k]] refers to. *)
Definition bucket (this : FileUtils) (k : Z) : list string :=
  default [] (file_map this !! k).

(** The clusters emitted over a sequence of buckets. *)
Fixpoint buckets_clusters (same : string → string → bool)
    (buckets : list (list string)) (existing_matches : gset string)
    : list (list string) * gset string :=
  match buckets with
  | [] => ([], existing_matches)
  | curr :: rest =>
      let '(ks, em) := bucket_clusters same curr existing_matches in
      let '(ks', em') := buckets_clusters same rest em in
      (ks ++ ks', em')
  end.

(** Symmetry and transitivity of a verdict on the paths of one bucket. *)
Definition sym_on (same : string → string → bool) (l : list string) : Prop :=
  ∀ x y, x ∈ l → y ∈ l → same x y = true → same y x = true.

Definition trans_on (same : string → string → bool) (l : list string) : Prop :=
  ∀ x y z, x ∈ l → y ∈ l → z ∈ l →
    same x y = true → same y z = true → same x z = true.

(** Filing a list of regular files in order, as the walk does. *)
Definition index_files (fl : list (string * N)) (this : FileUtils) : FileUtils :=
  foldl (λ this e, BuildFileMap_file e.1 e.2 this) this fl.

(** [matching_keys] holds the keys of the buckets with more than one path. *)
Definition index_inv (this : FileUtils) : Prop :=
  ∀ k, k ∈ matching_keys this ↔ 1 < length (bucket this k).

(** The index of an object: everything but [map_built]. *)
Definition strip (this : FileUtils) : gmap Z (list string) * gset Z :=
  (file_map this, matching_keys this).

(** Bytes filed in the index, each file counted at its key. *)
Definition index_total (l : list (Z * list string)) : Z :=
  foldr (λ x acc, (x.1 * Z.of_nat (length x.2) + acc)%Z) 0%Z l.

(** The keys of the regular files met by the walk, added up. *)
Definition keys_total (fl : list (string * N)) : Z :=
  foldr (λ e acc, (key_of e.2 + acc)%Z) 0%Z fl.

(** [n] zero bytes. *)
Definition zeros (n : N) : list byte := replicate (N.to_nat n) Byte.x00.

(** Transitivity of a verdict on a list, as a check. *)
Definition trans_check (same : string → string → bool) (l : list string) : bool :=
  forallb (λ x, forallb (λ y, forallb (λ z,
    implb (same x y && same y z) (same x z)) l) l) l.

(** ** Sample trees and file contents *)

(** Three files of one size; the first and the third are identical. *)
Definition three_files : list dirent :=
  [RegularFile "r/a" 2; RegularFile "r/b" 2; RegularFile "r/c" 2].

Definition three_files_world : world :=
  boot [("r/a", bytes "xx"); ("r/b", bytes "yy"); ("r/c", bytes "xx")].

(** A nested tree with two pairs of identical files. *)
Definition nested_tree : list dirent :=
  [RegularFile "r/a" 2; RegularFile "r/b" 2;
   Directory "r/d" [RegularFile "r/d/c" 2; RegularFile "r/d/e" 2]].

Definition nested_world : world :=
  boot [("r/a", bytes "xx"); ("r/b", bytes "yy");
        ("r/d/c", bytes "xx"); ("r/d/e", bytes "yy")].

(** A tree with a file of unique size. *)
Definition mixed_tree : list dirent :=
  [RegularFile "r/a" 2; Directory "r/d" [RegularFile "r/d/b" 2]; RegularFile "r/c" 5].

Definition mixed_world : world :=
  boot [("r/a", bytes "xx"); ("r/d/b", bytes "xx"); ("r/c", bytes "hello")].

(** An empty file beside a file of 2^32 zero bytes. *)
Definition wrap_tree : list dirent :=
  [RegularFile "r/a" 0; RegularFile "r/b" 4294967296].

Definition wrap_world : world := boot [("r/a", []); ("r/b", zeros 4294967296)].

(** Two files of 2^32 bytes that differ at offset 64, and an empty file. *)
Definition big_tree : list dirent :=
  [RegularFile "r/b" 4294967296; RegularFile "r/c" 4294967296; RegularFile "r/a" 0].

Definition big_world : world :=
  boot [("r/b", zeros 64 ++ Byte.x01 :: zeros 4294967231);
        ("r/c", zeros 64 ++ Byte.x02 :: zeros 4294967231);
        ("r/a", [])].

(** ** Vocabulary of the further properties *)

(** A run of rounds of [CompareFiles a b]: in every round one [fread] on
    [a], then one on [b], both asking for the same staged size. *)
Fixpoint staged_rounds (a b : string) (rs : list event) : Prop :=
  match rs with
  | [] => True
  | EvRead p n _ :: EvRead q m _ :: rs' =>
      p = a ∧ q = b ∧ n = m ∧ n ∈ BUFFER_SIZE ∧ staged_rounds a b rs'
  | _ => False
  end.

Definition stage_ok (size pass : N) : Prop := (pass < MAX_PASS)%N ∨ size ∈ BUFFER_SIZE.

(** Every file of the walk fits an [int] and, when it can be opened, is as
    long as [file_size] said. *)
Definition sizes_truthful (w : world) (fl : list (string * N)) : Prop :=
  ∀ p s, (p, s) ∈ fl →
    (Z.of_N s ≤ 2147483647)%Z
    ∧ ∀ d, files w !! p = Some d → N.of_nat (length d) = s.

(** Paths filed in the index, buckets added up. *)
Definition count_total (l : list (Z * list string)) : Z :=
  foldr (λ x acc, (Z.of_nat (length x.2) + acc)%Z) 0%Z l.

(** What [CompareMatchingKeys] writes for a match and for a whole cluster. *)
Definition render_match (first_match : bool) (i j : string) : list token :=
  if first_match then [Str "[ "; Str i; Str ","; Endl; Str "  "; Str j]
  else [Str ", "; Endl; Str "  "; Str j].

Definition render_matches (first_match : bool) (i : string) (ms : list string)
    : list token :=
  match ms with
  | [] => []
  | j :: ms' => render_match first_match i j ++ flat_map (render_match false i) ms'
  end.

Definition render_cluster (c : list string) : list token :=
  match c with
  | i :: j :: ms =>
      render_match true i j ++ flat_map (render_match false i) ms
        ++ [Str " ]"; Endl; Endl]
  | _ => []
  end.

(** The pairs the two nested loops over a bucket range over:
    [for i ... for j = i + 1 ...]. *)
Fixpoint ordered_pairs (curr : list string) : list (string * string) :=
  match curr with
  | [] => []
  | i :: rest => map (pair i) rest ++ ordered_pairs rest
  end.

(** * Properties *)

(** ** The state monad *)

Lemma bind_Some {A B} (m : M A) (f : A → M B) w x w' :
  m w = Some (x, w') → (m ≫= f) w = f x w'.
Proof. intros H. unfold mbind, M_bind. by rewrite H. Qed.

Ltac run_step :=
  unfold mbind, M_bind, mret, M_ret, modify, log, print_cout, print_cerr,
    fclose, fread, out_of_fuel; simpl.

(** ** memcmp and the blocks *)

Lemma memcmp_list_refl b : memcmp_list b b = 0%Z.
Proof. induction b as [|x b IH]; simpl; [done|]. by rewrite decide_True. Qed.

Lemma memcmp_list_zero b1 b2 :
  length b1 = length b2 → memcmp_list b1 b2 = 0%Z → b1 = b2.
Proof.
  revert b2. induction b1 as [|x b1 IH]; intros [|y b2] Hlen; simpl in *;
    try done.
  destruct (decide (x = y)) as [->|Hxy].
  - intros H. f_equal. apply IH; [lia|done].
  - by destruct (Byte.to_N x <? Byte.to_N y)%N.
Qed.

Lemma filled_length size r : length (filled size r) = N.to_nat size.
Proof.
  unfold filled, new_block.
  rewrite length_app, length_drop, length_replicate, length_take. lia.
Qed.

Lemma memcmp_filled size r1 r2 :
  (memcmp (filled size r1) (filled size r2) size =? 0)%Z
  = bool_decide (filled size r1 = filled size r2).
Proof.
  unfold memcmp.
  rewrite !take_ge by (rewrite filled_length; lia).
  case_bool_decide as Heq.
  - rewrite Heq, memcmp_list_refl. done.
  - apply Z.eqb_neq. intros H0. apply Heq.
    apply memcmp_list_zero; [by rewrite !filled_length | done].
Qed.

(** On a stream that still holds [size] bytes the block is what was read. *)
Lemma filled_full size r :
  N.to_nat size ≤ length r → filled size r = take (N.to_nat size) r.
Proof.
  intros H. unfold filled, new_block.
  rewrite drop_ge, app_nil_r; [done|].
  rewrite length_replicate, length_take. lia.
Qed.

Lemma filled_short size r :
  length r ≤ N.to_nat size →
  filled size r = r ++ replicate (N.to_nat size - length r) Byte.x00.
Proof.
  intros H. unfold filled, new_block.
  rewrite take_ge by done. by rewrite drop_replicate.
Qed.

(** ** The buffer schedule *)

Lemma BUFFER_SIZE_pos pass :
  (pass < MAX_PASS)%N → (0 < default 0 (BUFFER_SIZE !! N.to_nat pass))%N.
Proof.
  unfold MAX_PASS. intros H.
  assert (Hc : (pass = 0 ∨ pass = 1 ∨ pass = 2 ∨ pass = 3 ∨ pass = 4 ∨ pass = 5)%N)
    by lia.
  repeat (destruct Hc as [Hc|Hc]; [subst pass; reflexivity|]).
  subst pass; reflexivity.
Qed.

Lemma next_size_ok size pass size' pass' :
  schedule_ok size pass → next_size size pass = (size', pass') →
  (0 < size')%N ∧ schedule_ok size' pass'.
Proof.
  unfold next_size, schedule_ok. intros Hok.
  destruct (pass <? MAX_PASS)%N eqn:Hp; intros [= <- <-].
  - apply N.ltb_lt in Hp. pose proof (BUFFER_SIZE_pos pass Hp). auto.
  - apply N.ltb_ge in Hp. destruct Hok; [lia|auto].
Qed.

Lemma schedule_ok_start : schedule_ok 0 0.
Proof. left. reflexivity. Qed.

(** ** The loop summary *)

Lemma rounds_total fuel : ∀ r1 r2 size pass,
  schedule_ok size pass → length r1 < fuel ∨ length r2 < fuel →
  is_Some (rounds fuel r1 r2 size pass).
Proof.
  induction fuel as [|fuel IH]; intros r1 r2 size pass Hok Hfuel; [lia|].
  simpl. destruct (next_size size pass) as [size' pass'] eqn:Hn.
  destruct (next_size_ok _ _ _ _ Hok Hn) as [Hpos Hok'].
  destruct (negb _); [by eexists|].
  destruct (bool_decide (N.to_nat size' ≤ length r1)) eqn:H1;
    destruct (bool_decide (N.to_nat size' ≤ length r2)) eqn:H2; simpl;
    try by eexists.
  apply bool_decide_eq_true in H1, H2.
  apply IH; [done|]. rewrite !length_drop. lia.
Qed.

Lemma rounds_more_fuel fuel : ∀ fuel' r1 r2 size pass b,
  rounds fuel r1 r2 size pass = Some b → fuel ≤ fuel' →
  rounds fuel' r1 r2 size pass = Some b.
Proof.
  induction fuel as [|fuel IH]; intros fuel' r1 r2 size pass b; [done|].
  destruct fuel' as [|fuel']; [lia|]. simpl.
  destruct (next_size size pass) as [size' pass'].
  destruct (negb _); [done|].
  destruct (_ && _); [|done].
  intros H Hle. apply IH; [done|lia].
Qed.

Lemma rounds_fuel_irrelevant fuel fuel' r1 r2 size pass :
  schedule_ok size pass →
  length r1 < fuel ∨ length r2 < fuel →
  length r1 < fuel' ∨ length r2 < fuel' →
  rounds fuel r1 r2 size pass = rounds fuel' r1 r2 size pass.
Proof.
  intros Hok H1 H2.
  destruct (rounds_total fuel r1 r2 size pass Hok H1) as [b Hb].
  destruct (rounds_total fuel' r1 r2 size pass Hok H2) as [b' Hb'].
  pose proof (rounds_more_fuel _ (fuel `max` fuel') _ _ _ _ _ Hb ltac:(lia)) as E1.
  pose proof (rounds_more_fuel _ (fuel `max` fuel') _ _ _ _ _ Hb' ltac:(lia)) as E2.
  congruence.
Qed.

Lemma rounds_sym fuel : ∀ r1 r2 size pass,
  rounds fuel r1 r2 size pass = rounds fuel r2 r1 size pass.
Proof.
  induction fuel as [|fuel IH]; intros r1 r2 size pass; [done|].
  simpl. destruct (next_size size pass) as [size' pass'].
  rewrite !memcmp_filled.
  rewrite (bool_decide_ext (filled size' r1 = filled size' r2)
                           (filled size' r2 = filled size' r1)) by (split; congruence).
  destruct (negb _); [done|].
  rewrite (andb_comm (bool_decide (N.to_nat size' ≤ length r1))).
  destruct (_ && _); [apply IH|done].
Qed.

(** On files of one length the loop decides equality of contents. *)
Lemma rounds_same_length fuel : ∀ r1 r2 size pass b,
  schedule_ok size pass → length r1 = length r2 →
  rounds fuel r1 r2 size pass = Some b → b = bool_decide (r1 = r2).
Proof.
  induction fuel as [|fuel IH]; intros r1 r2 size pass b Hok Hlen; [done|].
  simpl. destruct (next_size size pass) as [size' pass'] eqn:Hn.
  destruct (next_size_ok _ _ _ _ Hok Hn) as [Hpos Hok'].
  rewrite memcmp_filled.
  destruct (decide (N.to_nat size' ≤ length r1)) as [Hfull|Hshort].
  - rewrite !filled_full by lia.
    rewrite (bool_decide_eq_true_2 (N.to_nat size' ≤ length r1)) by lia.
    rewrite (bool_decide_eq_true_2 (N.to_nat size' ≤ length r2)) by lia. simpl.
    case_bool_decide as Htake; simpl.
    + intros H. apply IH in H; [|done|rewrite !length_drop; lia].
      subst b. apply bool_decide_ext.
      rewrite <- (take_drop (N.to_nat size') r1) at 2.
      rewrite <- (take_drop (N.to_nat size') r2) at 2.
      rewrite Htake. split; [by intros ->|]. by intros ?%app_inv_head.
    + intros [= <-]. symmetry. apply bool_decide_eq_false. by intros ->.
  - rewrite !filled_short by lia.
    rewrite (bool_decide_eq_false_2 (N.to_nat size' ≤ length r1)) by lia. simpl.
    case_bool_decide as Hpad; simpl; intros [= <-]; symmetry.
    + apply bool_decide_eq_true. apply app_inj_1 in Hpad; [by destruct Hpad|done].
    + apply bool_decide_eq_false. intros ->. by apply Hpad.
Qed.

(** ** CompareFiles against its summary *)

Lemma feof_after_read p size r :
  Z.eqb (feof (mkFILE p (drop (N.to_nat size) r)
           (bool_decide (length (take (N.to_nat size) r) < N.to_nat size)))) 0
  = bool_decide (N.to_nat size ≤ length r).
Proof.
  unfold feof. simpl. rewrite length_take.
  destruct (decide (N.to_nat size ≤ length r)).
  - rewrite bool_decide_eq_false_2 by lia. by rewrite bool_decide_eq_true_2.
  - rewrite bool_decide_eq_true_2 by lia. by rewrite bool_decide_eq_false_2.
Qed.

Lemma loop_spec fuel : ∀ if1 if2 size pass w b,
  f_eof if1 = false → f_eof if2 = false →
  rounds fuel (f_rest if1) (f_rest if2) size pass = Some b →
  ∃ rs, Forall is_read rs ∧
    CompareFiles_loop fuel if1 if2 size pass w
    = Some (b, World (files w)
                     (remove_first (f_path if2) (remove_first (f_path if1) (handles w)))
                     (cout w) (cerr w) (trace w ++ rs)).
Proof.
  induction fuel as [|fuel IH]; intros [p1 r1 e1] [p2 r2 e2] size pass w b; simpl;
    intros -> ->; [done|].
  change (if (pass <? MAX_PASS)%N then _ else _) with (next_size size pass).
  destruct (next_size size pass) as [size' pass'].
  run_step. fold (filled size' r1) (filled size' r2).
  rewrite !feof_after_read.
  set (ev1 := EvRead p1 size' (N.of_nat (length (take (N.to_nat size') r1)))).
  set (ev2 := EvRead p2 size' (N.of_nat (length (take (N.to_nat size') r2)))).
  destruct (negb _).
  { intros [= <-]. exists [ev1; ev2]. split; [by repeat constructor|].
    by rewrite <- app_assoc. }
  destruct (decide (N.to_nat size' ≤ length r1)) as [H1|H1];
    [destruct (decide (N.to_nat size' ≤ length r2)) as [H2|H2]|].
  - rewrite !bool_decide_eq_true_2 by done. simpl.
    rewrite (bool_decide_eq_false_2 (length (take _ r1) < _)) by (rewrite length_take; lia).
    rewrite (bool_decide_eq_false_2 (length (take _ r2) < _)) by (rewrite length_take; lia).
    intros H.
    pose proof (λ w, IH (mkFILE p1 (drop (N.to_nat size') r1) false)
                        (mkFILE p2 (drop (N.to_nat size') r2) false)
                        size' pass' w b eq_refl eq_refl H) as IH'.
    edestruct IH' as (rs & Hrs & ->).
    exists (ev1 :: ev2 :: rs). split; [by repeat constructor|].
    simpl. by rewrite <- !app_assoc.
  - rewrite (bool_decide_eq_false_2 (_ ≤ length r2)) by done.
    rewrite andb_false_r.
    intros [= <-]. exists [ev1; ev2]. split; [by repeat constructor|].
    by rewrite <- app_assoc.
  - rewrite (bool_decide_eq_false_2 (_ ≤ length r1)) by done. simpl.
    intros [= <-]. exists [ev1; ev2]. split; [by repeat constructor|].
    by rewrite <- app_assoc.
Qed.

Lemma remove_first_both a b h :
  remove_first b (remove_first a (b :: a :: h)) = h.
Proof.
  simpl. repeat (case_decide; simplify_eq/=); done.
Qed.

Lemma CompareFiles_spec a b w :
  ∃ rs, Forall is_read rs ∧
    CompareFiles a b w
    = Some (Equal (files w) a b,
            World (files w) (leaked (files w) a b ++ handles w)
                  (cout w ++ complaint (files w) a b) (cerr w)
                  (trace w ++ EvCompare a b :: rs)).
Proof.
  unfold CompareFiles, Equal, leaked, complaint, fopen.
  unfold mbind, M_bind, mret, M_ret, modify, log, print_cout.
  cbn -[rounds CompareFiles_loop remove_first].
  destruct (files w !! a) as [da|] eqn:Ha; cbn -[rounds CompareFiles_loop remove_first];
    destruct (files w !! b) as [db|] eqn:Hb; cbn -[rounds CompareFiles_loop remove_first];
    try (exists []; split; [constructor|]; by rewrite ?app_nil_r).
  destruct (rounds_total (S (length da)) da db 0 0 schedule_ok_start ltac:(lia))
    as [r Hr].
  rewrite Hr.
  edestruct (loop_spec (S (length da)) (mkFILE a da false) (mkFILE b db false) 0 0)
    as (rs & Hrs & Hrun); [done|done|exact Hr|].
  exists rs. split; [done|].
  cbn -[rounds CompareFiles_loop remove_first] in Hrun. rewrite Hrun.
  cbn -[rounds CompareFiles_loop remove_first].
  rewrite remove_first_both, app_nil_r. by rewrite <- app_assoc.
Qed.

Lemma verdict_Equal w a b : verdict w a b = Equal (files w) a b.
Proof.
  unfold verdict. destruct (CompareFiles_spec a b w) as (rs & _ & ->). done.
Qed.

(** With both files open, or neither, no stream is left behind. *)
Lemma CompareFiles_closes a b w r w' :
  CompareFiles a b w = Some (r, w') →
  (is_Some (files w !! a) ↔ is_Some (files w !! b)) →
  handles w' = handles w.
Proof.
  destruct (CompareFiles_spec a b w) as (rs & _ & ->). intros [= _ <-] Hboth.
  cbn [handles]. unfold leaked.
  destruct (files w !! a) as [da|], (files w !! b) as [db|]; try done.
  - destruct Hboth as [H _]. by destruct H.
  - destruct Hboth as [_ H]. by destruct H.
Qed.

Lemma Equal_sym fs a b : Equal fs a b = Equal fs b a.
Proof.
  unfold Equal.
  destruct (fs !! a) as [da|], (fs !! b) as [db|]; try done.
  rewrite (rounds_fuel_irrelevant (S (length da)) (S (length db)) da db 0 0)
    by (auto using schedule_ok_start with lia).
  by rewrite rounds_sym.
Qed.

Lemma Equal_same_length fs a b da db :
  fs !! a = Some da → fs !! b = Some db → length da = length db →
  Equal fs a b = bool_decide (da = db).
Proof.
  intros Ha Hb Hlen. unfold Equal. rewrite Ha, Hb.
  destruct (rounds_total (S (length da)) da db 0 0 schedule_ok_start ltac:(lia))
    as [r Hr].
  rewrite Hr. simpl.
  by apply (rounds_same_length _ _ _ _ _ _ schedule_ok_start Hlen Hr).
Qed.

Lemma Equal_unreadable fs a b :
  fs !! a = None ∨ fs !! b = None → Equal fs a b = false.
Proof.
  unfold Equal. intros [-> | ->]; [done|]. by destruct (fs !! a).
Qed.

(** ** The clustering loops *)

Lemma evolves_refl w : evolves w w [] [].
Proof. split; by rewrite ?app_nil_r. Qed.

Lemma evolves_trans w1 w2 w3 cs1 cs2 ks1 ks2 :
  evolves w1 w2 cs1 ks1 → evolves w2 w3 cs2 ks2 →
  evolves w1 w3 (cs1 ++ cs2) (ks1 ++ ks2).
Proof.
  intros [F1 E1 C1 K1] [F2 E2 C2 K2]. split; try congruence.
  - by rewrite C2, C1, app_assoc.
  - by rewrite K2, K1, app_assoc.
Qed.

Lemma evolves_cout w ts :
  evolves w (World (files w) (handles w) (cout w ++ ts) (cerr w) (trace w)) [] [].
Proof. split; by rewrite ?app_nil_r. Qed.

Lemma omap_reads {B} (f : event → option B) rs :
  Forall is_read rs → (∀ p n k, f (EvRead p n k) = None) → omap f rs = [].
Proof.
  intros Hrs Hf. induction Hrs as [|e rs He _ IH]; [done|].
  destruct e; try done. simpl. by rewrite Hf.
Qed.

Lemma CompareFiles_evolves a b w :
  ∃ w', CompareFiles a b w = Some (Equal (files w) a b, w')
        ∧ evolves w w' [(a, b)] [].
Proof.
  destruct (CompareFiles_spec a b w) as (rs & Hrs & Hrun).
  eexists. split; [exact Hrun|].
  split; simpl; try done; unfold compared, clusters;
    rewrite omap_app; simpl; by rewrite (omap_reads _ rs Hrs).
Qed.

Lemma CompareMatchingKeys_j_spec i : ∀ js em fm mf pr w,
  ∃ r w' cs,
    CompareMatchingKeys_j i js em fm mf pr w = Some (r, w')
    ∧ evolves w w' cs []
    ∧ Forall (λ c, c.1 = i ∧ c.2 ∈ js) cs
    ∧ (i ∈ em → r = (em, fm, mf, pr) ∧ w' = w)
    ∧ (i ∉ em → i ∉ js →
       r = j_outcome i (filter (λ j, Equal (files w) i j = true) js) em fm mf pr
       ∧ cs = map (pair i) js).
Proof.
  induction js as [|j js IH]; intros em fm mf pr w.
  { exists (em, fm, mf, pr), w, []. split_and!; auto using evolves_refl. }
  cbn [CompareMatchingKeys_j].
  destruct (decide (i ∈ em)) as [Hin|Hout].
  { destruct (IH em fm mf pr w) as (r & w' & cs & Hrun & Hev & Hcs & Hskip & _).
    exists r, w', cs. split_and!; try done.
    eapply Forall_impl; [exact Hcs|]. intros c [? ?]. split; [done|by right]. }
  destruct (CompareFiles_evolves i j w) as (w1 & Hcmp & Hev1).
  rewrite (bind_Some _ _ _ _ _ Hcmp).
  assert (Hcons : ∀ cs, Forall (λ c : string * string, c.1 = i ∧ c.2 ∈ js) cs →
            Forall (λ c : string * string, c.1 = i ∧ c.2 ∈ j :: js) ((i, j) :: cs)).
  { intros cs Hcs. constructor; [split; [done|by left]|].
    eapply Forall_impl; [exact Hcs|]. intros c [? ?]. split; [done|by right]. }
  destruct (Equal (files w) i j) eqn:Hsame.
  - pose (st := if fm then (false, true, [i; j]) else (fm, mf, pr ++ [j])).
    pose (w2 := World (files w1) (handles w1)
                  (cout w1 ++ (if fm
                               then [Str "[ "; Str i; Str ","; Endl; Str "  "; Str j]
                               else [Str ", "; Endl; Str "  "; Str j]))
                  (cerr w1) (trace w1 ++ [EvInsert j])).
    destruct (IH ({[j]} ∪ em) st.1.1 st.1.2 st.2 w2)
      as (r & w' & cs & Hrun & Hev & Hcs & _ & Hex).
    exists r, w', ((i, j) :: cs). split_and!.
    + rewrite <- Hrun. unfold st, w2. by destruct fm.
    + apply (evolves_trans _ _ _ [(i, j)] cs [] [] Hev1).
      refine (evolves_trans _ w2 _ [] cs [] [] _ Hev).
      split; simpl; try done; unfold compared, clusters; by rewrite omap_app.
    + by apply Hcons.
    + done.
    + intros _ Hjs. apply not_elem_of_cons in Hjs as [Hij Hjs].
      assert (Hf : files w2 = files w) by apply Hev1.
      rewrite Hf in Hex.
      destruct Hex as [-> ->]; [set_solver|done|]. split; [|done].
      rewrite filter_cons_True by done.
      generalize (filter (λ j0, Equal (files w) i j0 = true) js). intros ms.
      assert (Hset : list_to_set ms ∪ ({[j]} ∪ em)
                     = list_to_set (j :: ms) ∪ (em : gset string)) by set_solver.
      assert (Hset0 : {[j]} ∪ em = list_to_set [j] ∪ (em : gset string)) by set_solver.
      unfold j_outcome, st.
      destruct ms, fm; cbn [fst snd]; rewrite ?Hset, ?Hset0, <- ?app_assoc; done.
  - destruct (IH em fm mf pr w1) as (r & w' & cs & Hrun & Hev & Hcs & _ & Hex).
    exists r, w', ((i, j) :: cs). split_and!.
    + done.
    + apply (evolves_trans _ _ _ [(i, j)] cs [] [] Hev1 Hev).
    + by apply Hcons.
    + done.
    + intros _ Hjs. apply not_elem_of_cons in Hjs as [Hij Hjs].
      assert (Hf : files w1 = files w) by apply Hev1.
      rewrite Hf in Hex.
      destruct Hex as [-> ->]; [done..|]. split; [|done].
      by rewrite filter_cons_False by (rewrite Hsame; done).
Qed.

Lemma CompareMatchingKeys_i_spec : ∀ curr em w,
  ∃ em' w' cs ks,
    CompareMatchingKeys_i curr em w = Some (em', w')
    ∧ evolves w w' cs ks
    ∧ Forall (λ c, c.1 ∈ curr ∧ c.2 ∈ curr) cs
    ∧ (NoDup curr → (ks, em') = bucket_clusters (Equal (files w)) curr em).
Proof.
  induction curr as [|i rest IH]; intros em w.
  { exists em, w, [], []. split_and!; auto using evolves_refl. }
  cbn [CompareMatchingKeys_i].
  destruct (CompareMatchingKeys_j_spec i rest em true false [] w)
    as ([[[em1 fm1] mf1] pr1] & w1 & cs1 & Hrun & Hev1 & Hcs1 & Hskip & Hex).
  rewrite (bind_Some _ _ _ _ _ Hrun). cbn beta iota.
  pose (em2 := if mf1 then {[i]} ∪ em1 else em1).
  pose (w2 := if mf1
              then World (files w1) (handles w1) (cout w1 ++ [Str " ]"; Endl; Endl])
                         (cerr w1) ((trace w1 ++ [EvCluster pr1]) ++ [EvInsert i])
              else w1).
  pose (ks1 := if mf1 then [pr1] else []).
  assert (Hev2 : evolves w1 w2 [] ks1).
  { unfold w2, ks1. destruct mf1; [|apply evolves_refl].
    split; simpl; try done; unfold compared, clusters;
      rewrite !omap_app; simpl; by rewrite ?app_nil_r. }
  destruct (IH em2 w2) as (em' & w' & cs & ks & Hrun' & Hev & Hcs & Hex').
  exists em', w', (cs1 ++ cs), (ks1 ++ ks). split_and!.
  - rewrite <- Hrun'. unfold em2, w2. by destruct mf1.
  - apply (evolves_trans _ _ _ cs1 cs [] (ks1 ++ ks) Hev1).
    apply (evolves_trans _ _ _ [] cs ks1 ks Hev2 Hev).
  - apply Forall_app. split.
    + eapply Forall_impl; [exact Hcs1|]. intros c [-> ?]. split; [by left|by right].
    + eapply Forall_impl; [exact Hcs|]. intros c [? ?]. split; by right.
  - intros [Hi Hnd]%NoDup_cons.
    assert (Hf : files w2 = files w).
    { transitivity (files w1); [apply Hev2|apply Hev1]. }
    specialize (Hex' Hnd). rewrite Hf in Hex'.
    cbn [bucket_clusters].
    destruct (decide (i ∈ em)) as [Hin|Hout].
    + destruct (Hskip Hin) as [[= -> -> -> ->] ->]. done.
    + destruct (Hex Hout Hi) as [Hr _]. unfold j_outcome in Hr.
      destruct (filter _ rest) as [|m ms] eqn:Hms.
      * injection Hr as -> -> -> ->. done.
      * injection Hr as -> -> -> ->. unfold em2, ks1 in *.
        simpl in *. rewrite <- Hex'. done.
Qed.

Lemma bucket_touch this x k :
  bucket (mkFileUtils (<[x := bucket this x]> (file_map this))
                      (map_built this) (matching_keys this)) k
  = bucket this k.
Proof.
  unfold bucket. simpl. destruct (decide (x = k)) as [->|Hne].
  - by rewrite lookup_insert_eq.
  - by rewrite lookup_insert_ne.
Qed.

Lemma CompareMatchingKeys_x_spec : ∀ keys this em w,
  ∃ this' em' w' cs ks,
    CompareMatchingKeys_x keys this em w = Some ((this', em'), w')
    ∧ evolves w w' cs ks
    ∧ (∀ k, bucket this' k = bucket this k)
    ∧ matching_keys this' = matching_keys this
    ∧ Forall (λ c, ∃ k, k ∈ keys ∧ c.1 ∈ bucket this k ∧ c.2 ∈ bucket this k) cs
    ∧ ((∀ k, k ∈ keys → NoDup (bucket this k)) →
       (ks, em') = buckets_clusters (Equal (files w)) (map (bucket this) keys) em).
Proof.
  induction keys as [|x keys IH]; intros this em w.
  { exists this, em, w, [], []. split_and!; auto using evolves_refl. }
  cbn [CompareMatchingKeys_x]. fold (bucket this x).
  set (this1 := mkFileUtils _ _ _).
  destruct (CompareMatchingKeys_i_spec (bucket this x) em w)
    as (em1 & w1 & cs1 & ks1 & Hrun1 & Hev1 & Hcs1 & Hex1).
  rewrite (bind_Some _ _ _ _ _ Hrun1).
  destruct (IH this1 em1 w1) as (this' & em' & w' & cs & ks & Hrun & Hev & Hb & Hmk & Hcs & Hex).
  exists this', em', w', (cs1 ++ cs), (ks1 ++ ks). split_and!.
  - done.
  - by apply (evolves_trans _ _ _ _ _ _ _ Hev1).
  - intros k. rewrite Hb. apply bucket_touch.
  - by rewrite Hmk.
  - apply Forall_app. split.
    + eapply Forall_impl; [exact Hcs1|]. intros c [? ?]. exists x.
      split_and!; [by left|done..].
    + eapply Forall_impl; [exact Hcs|]. intros c (k & Hk & H1 & H2). exists k.
      unfold this1 in H1, H2. rewrite bucket_touch in H1, H2.
      split_and!; [by right|done..].
  - intros Hnd. cbn [map buckets_clusters].
    rewrite <- Hex1 by (apply Hnd; by left).
    assert (Hf : files w1 = files w) by apply Hev1.
    rewrite Hf in Hex.
    assert (Hm : map (bucket this1) keys = map (bucket this) keys).
    { apply map_ext. intros k. apply bucket_touch. }
    rewrite Hm in Hex. rewrite <- Hex; [done|].
    intros k Hk. unfold this1. rewrite bucket_touch. apply Hnd. by right.
Qed.

Lemma elem_of_set_iteration s k : k ∈ set_iteration s ↔ k ∈ s.
Proof.
  unfold set_iteration. rewrite merge_sort_Permutation. apply elem_of_elements.
Qed.

Lemma NoDup_set_iteration s : NoDup (set_iteration s).
Proof.
  unfold set_iteration. rewrite merge_sort_Permutation. apply NoDup_elements.
Qed.

Lemma CompareMatchingKeys_spec this w :
  ∃ this' w' cs ks,
    CompareMatchingKeys this w = Some (this', w')
    ∧ evolves w w' cs ks
    ∧ (∀ k, bucket this' k = bucket this k)
    ∧ matching_keys this' = matching_keys this
    ∧ Forall (λ c, ∃ k, k ∈ matching_keys this
                        ∧ c.1 ∈ bucket this k ∧ c.2 ∈ bucket this k) cs
    ∧ ((∀ k, k ∈ matching_keys this → NoDup (bucket this k)) →
       ks = (buckets_clusters (Equal (files w))
               (map (bucket this) (set_iteration (matching_keys this))) ∅).1).
Proof.
  unfold CompareMatchingKeys.
  set (w0 := World (files w) (handles w) (cout w ++ [Str "Matching Files: \n"])
                   (cerr w) (trace w)).
  destruct (CompareMatchingKeys_x_spec (set_iteration (matching_keys this)) this ∅ w0)
    as (this' & em' & w' & cs & ks & Hrun & Hev & Hb & Hmk & Hcs & Hex).
  exists this', w', cs, ks. split_and!; try done.
  - unfold mbind, M_bind, print_cout, modify. cbn beta iota. fold w0.
    by rewrite Hrun.
  - apply (evolves_trans _ _ _ [] cs [] ks (evolves_cout w _) Hev).
  - eapply Forall_impl; [exact Hcs|]. intros c (k & Hk & ?). exists k.
    by rewrite <- elem_of_set_iteration.
  - intros Hnd. change (files w) with (files w0).
    rewrite <- Hex; [done|]. intros k Hk. apply Hnd. by apply elem_of_set_iteration.
Qed.

(** ** Clusters of a symmetric, transitive verdict *)

Section clusters.
Variable same : string → string → bool.

Lemma bucket_clusters_sound curr : ∀ em,
  NoDup curr → sym_on same curr → trans_on same curr →
  (∀ x y, x ∈ curr → y ∈ curr → x ∈ em → same x y = true → y ∈ em) →
  NoDup (concat (bucket_clusters same curr em).1)
  ∧ (∀ p, p ∈ concat (bucket_clusters same curr em).1 → p ∈ curr ∧ p ∉ em)
  ∧ (∀ p, p ∈ (bucket_clusters same curr em).2 → p ∈ em ∨ p ∈ curr).
Proof.
  induction curr as [|i rest IH]; intros em Hnd Hsym Htrans Hclosed.
  { simpl. split_and!; [constructor|by intros p ?%elem_of_nil|auto]. }
  apply NoDup_cons in Hnd as [Hi Hnd].
  assert (Hsym' : sym_on same rest).
  { intros x y Hx Hy. apply Hsym; by right. }
  assert (Htrans' : trans_on same rest).
  { intros x y z Hx Hy Hz. apply Htrans; by right. }
  assert (Hrest : NoDup (concat (bucket_clusters same rest em).1)
    ∧ (∀ p, p ∈ concat (bucket_clusters same rest em).1 → p ∈ i :: rest ∧ p ∉ em)
    ∧ (∀ p, p ∈ (bucket_clusters same rest em).2 → p ∈ em ∨ p ∈ i :: rest)).
  { destruct (IH em Hnd Hsym' Htrans') as (H1 & H2 & H3).
    - intros x y Hx Hy. apply Hclosed; by right.
    - split_and!; [done| |].
      + intros p Hp. destruct (H2 p Hp). split; [by right|done].
      + intros p Hp. destruct (H3 p Hp); [by left|right; by right]. }
  cbn [bucket_clusters].
  destruct (decide (i ∈ em)) as [Hin|Hout]; [done|].
  destruct (filter (λ j, same i j = true) rest) as [|m ms] eqn:Hms; [done|].
  rewrite <- Hms. clear Hrest.
  set (ms' := filter (λ j, same i j = true) rest).
  assert (Hms' : ∀ p, p ∈ ms' ↔ same i p = true ∧ p ∈ rest).
  { intros p. unfold ms'. by rewrite list_elem_of_filter. }
  set (em2 := {[i]} ∪ (list_to_set ms' ∪ em)).
  destruct (IH em2 Hnd Hsym' Htrans') as (H1 & H2 & H3).
  { intros x y Hx Hy Hxem Hxy. unfold em2 in *.
    apply elem_of_union in Hxem as [Hxi|Hxem].
    { apply elem_of_singleton in Hxi as ->. done. }
    apply elem_of_union in Hxem as [Hxms|Hxem].
    - apply elem_of_list_to_set, Hms' in Hxms as [Hix _].
      apply elem_of_union_r, elem_of_union_l, elem_of_list_to_set, Hms'.
      split; [|done].
      apply (Htrans i x y); [by left|by right|by right|done..].
    - apply elem_of_union_r, elem_of_union_r.
      apply (Hclosed x y); [by right|by right|done..]. }
  destruct (bucket_clusters same rest em2) as [ks em'] eqn:Hrec.
  cbn [fst snd concat] in *.
  split_and!.
  - apply NoDup_cons. split.
    + intros [Hq|Hq]%elem_of_app.
      * apply Hms' in Hq as [_ Hq]. done.
      * destruct (H2 i Hq) as [_ Hq']. apply Hq'. unfold em2. set_solver.
    + apply NoDup_app. split_and!.
      * by apply NoDup_filter.
      * intros p Hp Hq. destruct (H2 p Hq) as [_ Hq'].
        apply Hq'. unfold em2. set_solver.
      * done.
  - intros p [->|[Hp|Hp]%elem_of_app]%elem_of_cons.
    + split; [by left|done].
    + apply Hms' in Hp as [Hip Hp]. split; [by right|].
      intros Hpem. apply Hout.
      apply (Hclosed p i); [by right|by left|done|].
      apply Hsym; [by left|by right|done].
    + destruct (H2 p Hp) as [Hpr Hpem]. split; [by right|].
      intros ?. apply Hpem. unfold em2. set_solver.
  - intros p Hp. destruct (H3 p Hp) as [Hq|Hq]; [|right; by right].
    unfold em2 in Hq.
    apply elem_of_union in Hq as [->%elem_of_singleton|Hq]; [right; by left|].
    apply elem_of_union in Hq as [Hq|Hq]; [|by left].
    apply elem_of_list_to_set, Hms' in Hq as [_ Hq]. right; by right.
Qed.

Lemma buckets_clusters_sound buckets : ∀ em,
  NoDup (concat buckets) →
  Forall (sym_on same) buckets → Forall (trans_on same) buckets →
  (∀ p, p ∈ concat buckets → p ∉ em) →
  NoDup (concat (buckets_clusters same buckets em).1)
  ∧ (∀ p, p ∈ concat (buckets_clusters same buckets em).1 → p ∈ concat buckets)
  ∧ (∀ p, p ∈ (buckets_clusters same buckets em).2 → p ∈ em ∨ p ∈ concat buckets).
Proof.
  induction buckets as [|curr rest IH]; intros em Hnd Hsym Htrans Hfresh.
  { simpl. split_and!; [constructor|done|auto]. }
  cbn [concat] in Hnd, Hfresh. apply NoDup_app in Hnd as (Hnd1 & Hdisj & Hnd2).
  apply Forall_cons in Hsym as [Hsym1 Hsym], Htrans as [Htrans1 Htrans].
  destruct (bucket_clusters_sound curr em Hnd1 Hsym1 Htrans1) as (H1 & H2 & H3).
  { intros x y Hx _ Hxem _. exfalso. apply (Hfresh x); [|done].
    apply elem_of_app. by left. }
  cbn [buckets_clusters].
  destruct (bucket_clusters same curr em) as [ks em1].
  cbn [fst snd] in *.
  destruct (IH em1 Hnd2 Hsym Htrans) as (H1' & H2' & H3').
  { intros p Hp Hpem. destruct (H3 p Hpem) as [Hq|Hq].
    - apply (Hfresh p); [|done]. apply elem_of_app. by right.
    - by apply (Hdisj p). }
  destruct (buckets_clusters same rest em1) as [ks' em'].
  cbn [fst snd concat] in *. rewrite concat_app.
  split_and!.
  - apply NoDup_app. split_and!; [done| |done].
    intros p Hp Hq. apply (Hdisj p); [by apply H2|by apply H2'].
  - intros p [Hp|Hp]%elem_of_app; apply elem_of_app;
      [left; by apply H2|right; by apply H2'].
  - intros p Hp. destruct (H3' p Hp) as [Hq|Hq].
    + destruct (H3 p Hq); [by left|right; apply elem_of_app; by left].
    + right. apply elem_of_app. by right.
Qed.
End clusters.

(** ** BuildFileMap and the walk *)

Lemma dirent_ind (P : dirent → Prop) :
  (∀ path size, P (RegularFile path size)) →
  (∀ path entries, Forall P entries → P (Directory path entries)) →
  (∀ path, P (OtherEntry path)) →
  ∀ itr, P itr.
Proof.
  intros Hfile Hdir Hother. fix IH 1. intros [path size|path entries|path].
  - apply Hfile.
  - apply Hdir. induction entries as [|e entries IHentries]; constructor.
    + apply IH.
    + apply IHentries.
  - apply Hother.
Qed.

Lemma BuildFileMap_file_strip path fsize t1 t2 :
  strip t1 = strip t2 →
  strip (BuildFileMap_file path fsize t1) = strip (BuildFileMap_file path fsize t2).
Proof.
  unfold strip, BuildFileMap_file. intros [= -> ->].
  by case_bool_decide.
Qed.

Lemma index_files_strip fl : ∀ t1 t2,
  strip t1 = strip t2 → strip (index_files fl t1) = strip (index_files fl t2).
Proof.
  induction fl as [|e fl IH]; intros t1 t2 H; [done|].
  apply IH. by apply BuildFileMap_file_strip.
Qed.

Lemma index_files_app fl1 fl2 this :
  index_files (fl1 ++ fl2) this = index_files fl2 (index_files fl1 this).
Proof. apply foldl_app. Qed.

Lemma BuildFileMap_entry_walk itr : ∀ t1 t2,
  strip t1 = strip t2 →
  strip (BuildFileMap_entry t1 itr) = strip (index_files (walk_entry itr) t2).
Proof.
  induction itr as [path size|path entries IH|path] using dirent_ind;
    intros t1 t2 H; cbn [BuildFileMap_entry walk_entry].
  - by apply BuildFileMap_file_strip.
  - change (strip (foldl BuildFileMap_entry t1 entries)
            = strip (index_files (flat_map walk_entry entries) t2)).
    revert t1 t2 H. induction IH as [|e entries He _ IHentries]; intros t1 t2 H.
    + done.
    + cbn [foldl flat_map]. rewrite index_files_app.
      apply IHentries. by apply He.
  - done.
Qed.

Lemma BuildFileMap_entries_walk entries this :
  strip (BuildFileMap_entries entries this) = strip (index_files (walk entries) this).
Proof.
  unfold BuildFileMap_entries, walk.
  change (strip (foldl BuildFileMap_entry this entries)
          = strip (index_files (flat_map walk_entry entries) this)).
  generalize (eq_refl (strip this)). generalize this at 1 3 as t1. generalize this as t2.
  induction entries as [|e entries IH]; intros t2 t1 H; [done|].
  cbn [foldl flat_map]. rewrite index_files_app.
  apply IH. by apply BuildFileMap_entry_walk.
Qed.

Lemma bucket_strip t1 t2 k : strip t1 = strip t2 → bucket t1 k = bucket t2 k.
Proof. unfold strip, bucket. by intros [= -> _]. Qed.

Lemma BuildFileMap_file_bucket path fsize this k :
  bucket (BuildFileMap_file path fsize this) k
  = bucket this k ++ (if decide (key_of fsize = k) then [path] else []).
Proof.
  unfold BuildFileMap_file, bucket. fold (key_of fsize).
  assert (Hfm : ∀ b mk, default [] (file_map (mkFileUtils
            (<[key_of fsize := default [] (file_map this !! key_of fsize) ++ [path]]>
               (file_map this)) b mk) !! k)
          = default [] (file_map this !! k)
            ++ (if decide (key_of fsize = k) then [path] else [])).
  { intros b mk. simpl. destruct (decide (key_of fsize = k)) as [->|Hne].
    - by rewrite lookup_insert_eq.
    - rewrite lookup_insert_ne by done. by rewrite app_nil_r. }
  case_bool_decide; apply Hfm.
Qed.

Lemma BuildFileMap_file_keys path fsize this :
  matching_keys (BuildFileMap_file path fsize this)
  = if bool_decide (1 < length (bucket this (key_of fsize) ++ [path]))
    then {[key_of fsize]} ∪ matching_keys this else matching_keys this.
Proof.
  unfold BuildFileMap_file, bucket. fold (key_of fsize).
  rewrite lookup_insert_eq. simpl. by case_bool_decide.
Qed.

Lemma BuildFileMap_file_inv path fsize this :
  index_inv this → index_inv (BuildFileMap_file path fsize this).
Proof.
  intros Hinv k. rewrite BuildFileMap_file_bucket, BuildFileMap_file_keys.
  specialize (Hinv k). rewrite !length_app.
  destruct (decide (key_of fsize = k)) as [->|Hne]; simpl.
  - case_bool_decide as Hlen.
    + split; [lia|set_solver].
    + rewrite Hinv. lia.
  - case_bool_decide; rewrite ?elem_of_union, ?elem_of_singleton, Hinv;
      simpl; intuition lia.
Qed.

Lemma index_files_inv fl : ∀ this, index_inv this → index_inv (index_files fl this).
Proof.
  induction fl as [|e fl IH]; intros this H; [done|].
  apply IH. by apply BuildFileMap_file_inv.
Qed.

Lemma index_files_bucket fl : ∀ this k,
  bucket (index_files fl this) k = bucket this k ++ bucket_of k fl.
Proof.
  induction fl as [|[path fsize] fl IH]; intros this k.
  { unfold bucket_of. simpl. by rewrite app_nil_r. }
  change (index_files ((path, fsize) :: fl) this)
    with (index_files fl (BuildFileMap_file path fsize this)).
  rewrite IH, BuildFileMap_file_bucket, <- app_assoc. f_equal.
  unfold bucket_of. rewrite filter_cons. simpl.
  by destruct (decide (key_of fsize = k)).
Qed.

Lemma index_inv_new : index_inv FileUtils_new.
Proof.
  intros k. unfold bucket. simpl. rewrite lookup_empty. simpl.
  split; [set_solver|lia].
Qed.

(** The index after the walk of [entries], starting from a fresh object. *)
Lemma BuildFileMap_bucket entries k :
  bucket (BuildFileMap_entries entries FileUtils_new) k = bucket_of k (walk entries).
Proof.
  rewrite (bucket_strip _ _ k (BuildFileMap_entries_walk entries FileUtils_new)).
  rewrite index_files_bucket. unfold bucket at 1. simpl. by rewrite lookup_empty.
Qed.

Lemma BuildFileMap_keys entries k :
  k ∈ matching_keys (BuildFileMap_entries entries FileUtils_new)
  ↔ 1 < length (bucket_of k (walk entries)).
Proof.
  pose proof (BuildFileMap_entries_walk entries FileUtils_new) as Hs.
  rewrite <- BuildFileMap_bucket.
  rewrite (bucket_strip _ _ k Hs).
  assert (Hmk : matching_keys (BuildFileMap_entries entries FileUtils_new)
                = matching_keys (index_files (walk entries) FileUtils_new))
    by (by injection Hs).
  rewrite Hmk. apply index_files_inv, index_inv_new.
Qed.

Lemma elem_of_bucket_of p k fl :
  p ∈ bucket_of k fl ↔ ∃ s, (p, s) ∈ fl ∧ key_of s = k.
Proof.
  unfold bucket_of. rewrite list_elem_of_fmap. split.
  - intros ([q s] & -> & [Hk Hin]%list_elem_of_filter). by exists s.
  - intros (s & Hin & Hk). exists (p, s). split; [done|].
    by apply list_elem_of_filter.
Qed.

Lemma bucket_of_NoDup k fl : NoDup fl.*1 → NoDup (bucket_of k fl).
Proof.
  intros Hnd. apply (sublist_NoDup _ _ Hnd).
  unfold bucket_of. apply fmap_sublist, sublist_filter.
Qed.

Lemma elem_of_concat {A} (x : A) (ls : list (list A)) :
  x ∈ concat ls ↔ ∃ l, x ∈ l ∧ l ∈ ls.
Proof.
  induction ls as [|l ls IH]; simpl.
  - split; [by intros ?%elem_of_nil|by intros (l & _ & ?%elem_of_nil)].
  - rewrite elem_of_app, IH. split.
    + intros [H|(l' & H1 & H2)]; [exists l; split; [done|by left]|].
      exists l'. split; [done|by right].
    + intros (l' & H1 & [->|H2]%elem_of_cons); [by left|right; by exists l'].
Qed.

Lemma NoDup_fst_unique (fl : list (string * N)) p s s' :
  NoDup fl.*1 → (p, s) ∈ fl → (p, s') ∈ fl → s = s'.
Proof.
  induction fl as [|[q t] fl IH]; [by intros _ ?%elem_of_nil|].
  simpl. intros [Hq Hfl]%NoDup_cons Hs Hs'.
  apply elem_of_cons in Hs as [Hs|Hs], Hs' as [Hs'|Hs'].
  - congruence.
  - exfalso. apply Hq. apply list_elem_of_fmap. exists (p, s').
    split; [|done]. simpl. congruence.
  - exfalso. apply Hq. apply list_elem_of_fmap. exists (p, s).
    split; [|done]. simpl. congruence.
  - by apply IH.
Qed.

Lemma buckets_of_NoDup fl keys :
  NoDup fl.*1 → NoDup keys → NoDup (concat (map (λ k, bucket_of k fl) keys)).
Proof.
  intros Hfl. induction 1 as [|k keys Hk Hkeys IH]; [constructor|].
  cbn [map concat]. apply NoDup_app. split_and!; [by apply bucket_of_NoDup| |done].
  intros p (s & Hs & <-)%elem_of_bucket_of Hp.
  apply elem_of_concat in Hp as (b & Hpb & Hb).
  apply list_elem_of_fmap in Hb as (k' & -> & Hk').
  apply elem_of_bucket_of in Hpb as (s' & Hs' & <-).
  apply Hk.
  by rewrite (NoDup_fst_unique fl p s s' Hfl Hs Hs').
Qed.

Lemma PrintMapStats_evolves this w :
  ∃ w', PrintMapStats this w = Some (tt, w') ∧ evolves w w' [] []
        ∧ trace w' = trace w ∧ handles w' = handles w.
Proof.
  unfold PrintMapStats. destruct (PrintMapStats_loop _) as [num_files total_size].
  eexists. split; [reflexivity|]. split; [apply evolves_cout|done].
Qed.

Lemma FindDups_spec dir_path entries w :
  let fl := walk entries in
  let this := BuildFileMap_entries entries FileUtils_new in
  ∃ this' w' cs ks,
    FindDups dir_path (Listing entries) FileUtils_new w = Some (Returned this', w')
    ∧ evolves w w' cs ks
    ∧ (∀ k, bucket this' k = bucket_of k fl)
    ∧ (∀ k, k ∈ matching_keys this' ↔ 1 < length (bucket_of k fl))
    ∧ Forall (λ c, ∃ k, 1 < length (bucket_of k fl)
                        ∧ c.1 ∈ bucket_of k fl ∧ c.2 ∈ bucket_of k fl) cs
    ∧ (NoDup fl.*1 →
       ks = (buckets_clusters (Equal (files w))
               (map (λ k, bucket_of k fl) (set_iteration (matching_keys this))) ∅).1).
Proof.
  intros fl this. unfold FindDups, BuildFileMap.
  destruct (CompareMatchingKeys_spec this w)
    as (this' & w1 & cs & ks & Hrun & Hev & Hb & Hmk & Hcs & Hex).
  destruct (PrintMapStats_evolves this' w1) as (w' & Hrun' & Hev' & _).
  exists this', w', cs, ks. split_and!.
  - unfold mbind at 1, M_bind at 1, mret at 1, M_ret at 1. cbn beta iota.
    fold this. rewrite (bind_Some _ _ _ _ _ Hrun).
    by rewrite (bind_Some _ _ _ _ _ Hrun').
  - rewrite <- (app_nil_r cs), <- (app_nil_r ks).
    by apply (evolves_trans _ _ _ _ _ _ _ Hev).
  - intros k. rewrite Hb. apply BuildFileMap_bucket.
  - intros k. rewrite Hmk. apply BuildFileMap_keys.
  - eapply Forall_impl; [exact Hcs|]. intros c (k & Hk & H1 & H2). exists k.
    unfold this in *. rewrite BuildFileMap_bucket in H1, H2.
    by apply BuildFileMap_keys in Hk.
  - intros Hnd. rewrite Hex.
    + f_equal. f_equal. apply map_ext. intros k. apply BuildFileMap_bucket.
    + intros k _. unfold this. rewrite BuildFileMap_bucket.
      by apply bucket_of_NoDup.
Qed.

(** ** PrintMapStats *)

Lemma Z2Qc_add a b : Z2Qc (a + b) = (Z2Qc a + Z2Qc b)%Qc.
Proof.
  apply Qc_is_canon. unfold Z2Qc, Qcplus, Q2Qc. cbn [this].
  rewrite !Qred_correct. by rewrite inject_Z_plus.
Qed.

Lemma Z2Qc_mul a b : Z2Qc (a * b) = (Z2Qc a * Z2Qc b)%Qc.
Proof.
  apply Qc_is_canon. unfold Z2Qc, Qcmult, Q2Qc. cbn [this].
  rewrite !Qred_correct. by rewrite inject_Z_mult.
Qed.

Lemma mega_nonzero : Z2Qc (Z.shiftl 1 20) ≠ Z2Qc 0.
Proof. intros H. apply (f_equal this) in H. vm_compute in H. discriminate. Qed.

Lemma PrintMapStats_loop_total l : ∀ n t,
  (foldl (λ '(num_files, total_size) x,
           (to_int (num_files + Z.of_nat (length x.2)),
            (total_size + (Z2Qc x.1 * Z2Qc (Z.of_nat (length x.2)))
                          / Z2Qc (Z.shiftl 1 20))%Qc))
        (n, t) l).2
  = (t + Z2Qc (index_total l) / Z2Qc (Z.shiftl 1 20))%Qc.
Proof.
  induction l as [|x l IH]; intros n t; simpl.
  - change (Z2Qc 0) with 0%Qc. field. apply mega_nonzero.
  - rewrite IH. rewrite Z2Qc_add, Z2Qc_mul. field. apply mega_nonzero.
Qed.

Lemma index_total_perm l1 l2 : l1 ≡ₚ l2 → index_total l1 = index_total l2.
Proof.
  induction 1 as [|x l1 l2 _ IH|x y l|l1 l2 l3 _ IH1 _ IH2]; simpl; lia.
Qed.

Lemma index_total_file path fsize this :
  index_total (map_to_list (file_map (BuildFileMap_file path fsize this)))
  = (index_total (map_to_list (file_map this)) + key_of fsize)%Z.
Proof.
  assert (Hfm : file_map (BuildFileMap_file path fsize this)
                = <[key_of fsize := bucket this (key_of fsize) ++ [path]]> (file_map this)).
  { unfold BuildFileMap_file. by case_bool_decide. }
  rewrite Hfm. unfold bucket.
  destruct (file_map this !! key_of fsize) as [b|] eqn:Hb; simpl.
  - rewrite <- insert_delete_eq.
    rewrite (index_total_perm _ _ (map_to_list_insert _ _ _ (lookup_delete_eq _ _))).
    rewrite <- (index_total_perm _ _ (map_to_list_delete _ _ _ Hb)).
    simpl. rewrite length_app. simpl. lia.
  - rewrite (index_total_perm _ _ (map_to_list_insert _ _ _ Hb)). simpl. lia.
Qed.

Lemma index_total_files fl : ∀ this,
  index_total (map_to_list (file_map (index_files fl this)))
  = (index_total (map_to_list (file_map this)) + keys_total fl)%Z.
Proof.
  induction fl as [|[path fsize] fl IH]; intros this; simpl; [lia|].
  change (index_files ((path, fsize) :: fl) this)
    with (index_files fl (BuildFileMap_file path fsize this)).
  rewrite IH, index_total_file. lia.
Qed.

Lemma index_total_walk entries :
  index_total (map_to_list (file_map (BuildFileMap_entries entries FileUtils_new)))
  = keys_total (walk entries).
Proof.
  pose proof (BuildFileMap_entries_walk entries FileUtils_new) as Hs.
  assert (Hfm : file_map (BuildFileMap_entries entries FileUtils_new)
                = file_map (index_files (walk entries) FileUtils_new))
    by (by injection Hs).
  rewrite Hfm, index_total_files. simpl. by rewrite map_to_list_empty.
Qed.

Lemma PrintMapStats_total this w :
  ∃ num_files,
    PrintMapStats this w
    = Some (tt, World (files w) (handles w)
                  (cout w ++ [Str "-- Stats -- \n";
                              Str "Number of files scanned: "; Num num_files; Endl;
                              Str "Total data compared:     ";
                              Dbl (Z2Qc (index_total (map_to_list (file_map this)))
                                   / Z2Qc 1048576)%Qc;
                              Str "MB"; Endl])
                  (cerr w) (trace w)).
Proof.
  unfold PrintMapStats.
  pose proof (PrintMapStats_loop_total (map_to_list (file_map this)) 0%Z (Z2Qc 0)) as H.
  fold (PrintMapStats_loop (map_to_list (file_map this))) in H.
  destruct (PrintMapStats_loop _) as [num_files total_size]. simpl in H.
  exists num_files. subst total_size.
  change (Z.shiftl 1 20) with 1048576%Z. change (Z2Qc 0) with 0%Qc.
  by rewrite Qcplus_0_l.
Qed.

(** ** Two files under one key *)

Lemma length_zeros n : N.of_nat (length (zeros n)) = n.
Proof. unfold zeros. rewrite length_replicate. apply N2Nat.id. Qed.

Lemma set_iteration_singleton k : set_iteration {[k]} = [k].
Proof. unfold set_iteration. by rewrite elements_singleton. Qed.

(** A bucket of two distinct paths: the one comparison is made. *)
Lemma CompareMatchingKeys_i_pair a b w :
  a ≠ b →
  ∃ em' w' ks, CompareMatchingKeys_i [a; b] ∅ w = Some (em', w')
               ∧ evolves w w' [(a, b)] ks.
Proof.
  intros Hab.
  destruct (CompareMatchingKeys_i_spec [a; b] ∅ w)
    as (em' & w' & cs & ks & Hrun & Hev & _ & _).
  exists em', w', ks. split; [done|].
  assert (cs = [(a, b)]) as <-; [|done].
  destruct Hev as [_ _ Hcs _]. revert Hrun Hcs.
  cbn [CompareMatchingKeys_i].
  destruct (CompareMatchingKeys_j_spec a [b] ∅ true false [] w)
    as ([[[em1 fm1] mf1] pr1] & w1 & cs1 & Hrun1 & Hev1 & _ & _ & Hex).
  destruct Hex as [_ ->]; [set_solver|by intros ?%list_elem_of_singleton|].
  rewrite (bind_Some _ _ _ _ _ Hrun1). cbn beta iota.
  assert (Hw2 : ∀ w2 em2, compared (trace w2) = compared (trace w1) →
            (CompareMatchingKeys_i [b] em2 w2 = Some (em', w') →
             compared (trace w') = compared (trace w) ++ cs → cs = [(a, b)])).
  { intros w2 em2 Hc. cbn. unfold mbind, M_bind, mret, M_ret. cbn.
    intros [= _ <-]. rewrite Hc. destruct Hev1 as [_ _ -> _]. simpl.
    by intros ?%app_inv_head. }
  destruct mf1.
  - unfold mbind at 1, M_bind at 1. unfold mbind at 2, M_bind at 2.
    unfold print_cout, log, modify, mbind, M_bind, mret, M_ret. cbn beta iota.
    apply Hw2. cbn. unfold compared. by rewrite !omap_app, !app_nil_r.
  - unfold mbind at 1, M_bind at 1, mret at 1, M_ret at 1. cbn beta iota.
    by apply Hw2.
Qed.

Lemma two_files_index p1 s1 p2 s2 :
  key_of s1 = key_of s2 →
  let this := BuildFileMap_entries [RegularFile p1 s1; RegularFile p2 s2] FileUtils_new in
  bucket this (key_of s1) = [p1; p2] ∧ matching_keys this = {[key_of s1]}.
Proof.
  intros Hk this.
  assert (Hb : ∀ k, bucket_of k (walk [RegularFile p1 s1; RegularFile p2 s2])
                    = if decide (key_of s1 = k) then [p1; p2] else []).
  { intros k. unfold bucket_of. cbn [walk flat_map walk_entry app].
    rewrite !filter_cons, filter_nil. cbn [snd]. rewrite <- Hk.
    by destruct (decide (key_of s1 = k)). }
  split.
  - unfold this. rewrite BuildFileMap_bucket, Hb. by rewrite decide_True.
  - apply set_eq. intros k. unfold this. rewrite BuildFileMap_keys, Hb.
    rewrite elem_of_singleton.
    destruct (decide (key_of s1 = k)); simpl; split; intros; try done; lia.
Qed.

Lemma two_files_compared dir_path p1 s1 p2 s2 w :
  p1 ≠ p2 → key_of s1 = key_of s2 →
  ∃ this' w',
    FindDups dir_path (Listing [RegularFile p1 s1; RegularFile p2 s2]) FileUtils_new w
    = Some (Returned this', w')
    ∧ compared (trace w') = compared (trace w) ++ [(p1, p2)].
Proof.
  intros Hp Hk.
  destruct (two_files_index p1 s1 p2 s2 Hk) as [Hb Hmk].
  set (this := BuildFileMap_entries _ _) in *.
  unfold FindDups, BuildFileMap.
  unfold mbind at 1, M_bind at 1, mret at 1, M_ret at 1. cbn beta iota. fold this.
  unfold CompareMatchingKeys. rewrite Hmk, set_iteration_singleton.
  cbn [CompareMatchingKeys_x]. fold (bucket this (key_of s1)). rewrite Hb.
  set (w0 := World (files w) (handles w) (cout w ++ [Str "Matching Files: \n"])
                   (cerr w) (trace w)).
  destruct (CompareMatchingKeys_i_pair p1 p2 w0 Hp) as (em' & w1 & ks & Hrun & Hev).
  set (this1 := mkFileUtils _ _ _).
  destruct (PrintMapStats_evolves this1 w1) as (w' & Hrun' & _ & Htr & _).
  exists this1, w'. split.
  - unfold print_cout, modify, mbind, M_bind, mret, M_ret. cbn beta iota. fold w0.
    rewrite Hrun. cbn beta iota. by rewrite Hrun'.
  - rewrite Htr. apply Hev.
Qed.

(** ** Sizes and keys *)

Lemma key_of_range s : (- 2 ^ 31 ≤ key_of s < 2 ^ 31)%Z.
Proof. unfold key_of, to_int. Z.div_mod_to_equations. lia. Qed.

Lemma key_of_mod s : (key_of s mod 2 ^ 32 = Z.of_N s mod 2 ^ 32)%Z.
Proof.
  unfold key_of, to_int.
  generalize (Z.of_N s). intros z. Z.div_mod_to_equations. lia.
Qed.

Lemma key_of_small s : (Z.of_N s < 2 ^ 31)%Z → key_of s = Z.of_N s.
Proof.
  unfold key_of, to_int. intros H. pose proof (N2Z.is_nonneg s).
  Z.div_mod_to_equations. lia.
Qed.

Lemma key_of_large s : (2 ^ 31 ≤ Z.of_N s)%Z → (key_of s < Z.of_N s)%Z.
Proof. intros H. pose proof (key_of_range s). lia. Qed.

Lemma key_of_wrap s1 s2 n : (s2 = s1 + n * 4294967296)%N → key_of s1 = key_of s2.
Proof.
  intros ->. unfold key_of, to_int.
  rewrite N2Z.inj_add, N2Z.inj_mul. generalize (Z.of_N s1) (Z.of_N n). intros z m.
  change (Z.of_N 4294967296) with (2 ^ 32)%Z.
  replace (z + m * 2 ^ 32 + 2 ^ 31)%Z with (z + 2 ^ 31 + m * 2 ^ 32)%Z by lia.
  by rewrite Z.mod_add.
Qed.

(** ** Transitivity of the verdict *)

Lemma trans_check_sound same l : trans_check same l = true → trans_on same l.
Proof.
  unfold trans_check. rewrite forallb_forall.
  intros H x y z Hx Hy Hz Hxy Hyz.
  apply list_elem_of_In in Hx, Hy, Hz.
  specialize (H x Hx). rewrite forallb_forall in H.
  specialize (H y Hy). rewrite forallb_forall in H.
  specialize (H z Hz). by rewrite Hxy, Hyz in H.
Qed.

Lemma trans_on_subseteq same l1 l2 : l1 ⊆ l2 → trans_on same l2 → trans_on same l1.
Proof. intros Hsub H x y z Hx Hy Hz. apply H; by apply Hsub. Qed.

Lemma bucket_of_subseteq k fl : bucket_of k fl ⊆ fl.*1.
Proof.
  intros p (s & Hs & _)%elem_of_bucket_of. apply list_elem_of_fmap. by exists (p, s).
Qed.

Lemma Equal_sym_on fs l : sym_on (Equal fs) l.
Proof. intros x y _ _. by rewrite Equal_sym. Qed.


Lemma trans_on_ext same1 same2 l :
  (∀ x y, same1 x y = same2 x y) → trans_on same1 l → trans_on same2 l.
Proof.
  intros Hext H x y z Hx Hy Hz. rewrite <- !Hext. by apply H.
Qed.


Lemma NoDup_two {A} (l : list A) :
  NoDup l → 1 < length l → ∃ x y, x ∈ l ∧ y ∈ l ∧ x ≠ y.
Proof.
  destruct l as [|x [|y l]]; simpl; [lia..|].
  intros [Hx _]%NoDup_cons _. exists x, y. split_and!; [by left|right; by left|].
  intros ->. apply Hx. by left.
Qed.

(** The run on [big_tree] whatever follows offset 64 in the two large files. *)
Lemma big_tree_run tb tc :
  ∃ this' w',
    FindDups "r" (Listing big_tree) FileUtils_new
      (boot [("r/b", zeros 64 ++ Byte.x01 :: tb);
             ("r/c", zeros 64 ++ Byte.x02 :: tc);
             ("r/a", [])])
    = Some (Returned this', w')
    ∧ clusters (trace w') = [["r/b"; "r/a"]; ["r/c"; "r/a"]].
Proof.
  set (w := boot _).
  destruct (FindDups_spec "r" big_tree w)
    as (this' & w' & cs & ks & Hrun & Hev & _ & _ & _ & Hks).
  exists this', w'. split; [done|].
  destruct Hev as [_ _ _ ->].
  rewrite Hks by (apply (bool_decide_unpack _); reflexivity).
  vm_compute. reflexivity.
Qed.

(** * The claims *)

(** ** The comparator *)

(** Claim C1.  [CompareFiles] does not guarantee equal sizes when it returns
    true: a 3-byte file and the same 3 bytes followed by a zero byte compare
    equal (the short read leaves the zero-initialised block untouched), and
    so do an empty file and a file that starts with 64 zero bytes, whatever
    follows them (the loop stops as soon as either stream is at end-of-file). *)
Theorem CompareFiles_true_on_unequal_sizes :
  (let w := boot [("a", bytes "abc"); ("b", bytes "abc" ++ [Byte.x00])] in
   length <$> files w !! "a" = Some 3
   ∧ length <$> files w !! "b" = Some 4
   ∧ ∃ w', CompareFiles "a" "b" w = Some (true, w'))
  ∧ (let w := boot [("a", []); ("b", zeros 64 ++ bytes "tail")] in
     length <$> files w !! "a" = Some 0
     ∧ length <$> files w !! "b" = Some 68
     ∧ ∃ w', CompareFiles "a" "b" w = Some (true, w')).
Proof. split; vm_compute; (split_and!; [done..|]); by eexists. Qed.

(** Claim C9.  Symmetry: on the same file system [CompareFiles a b] and
    [CompareFiles b a] both return, and return the same boolean. *)
Theorem CompareFiles_symmetric a b w :
  ∃ r w1 w2,
    CompareFiles a b w = Some (r, w1) ∧ CompareFiles b a w = Some (r, w2).
Proof.
  destruct (CompareFiles_spec a b w) as (rs1 & _ & H1).
  destruct (CompareFiles_spec b a w) as (rs2 & _ & H2).
  rewrite (Equal_sym _ b a) in H2. eauto.
Qed.

(** Claim C4.  When one [fopen] fails and the other succeeded, [CompareFiles]
    returns false with the stream that did open still open: neither early
    return calls [fclose]. *)
Theorem CompareFiles_leaks_stream_on_open_failure :
  (∃ w', CompareFiles "a" "b" (boot [("a", bytes "x")]) = Some (false, w')
         ∧ handles w' = ["a"])
  ∧ (∃ w', CompareFiles "a" "b" (boot [("b", bytes "x")]) = Some (false, w')
           ∧ handles w' = ["b"]).
Proof. split; vm_compute; by eexists. Qed.

(** Claim C6, as the code has it: an unopenable file makes [CompareFiles]
    return false after writing ["Could not open: <path>"] to standard output;
    standard error is left untouched.  The [j] loop then goes on with the
    paths that follow, which all get their turn. *)
Theorem CompareFiles_open_failure a b w :
  files w !! a = None ∨ files w !! b = None →
  ∃ w', CompareFiles a b w = Some (false, w')
        ∧ cout w' = cout w ++ [Str "Could not open: ";
                               Str (match files w !! a with None => a | Some _ => b end);
                               Endl]
        ∧ cerr w' = cerr w
        ∧ ∀ js em first_match match_found printed,
            a ∉ em →
            CompareMatchingKeys_j a (b :: js) em first_match match_found printed w
            = CompareMatchingKeys_j a js em first_match match_found printed w'
            ∧ is_Some (CompareMatchingKeys_j a js em first_match match_found printed w').
Proof.
  intros Hfail.
  destruct (CompareFiles_spec a b w) as (rs & _ & Hrun).
  rewrite (Equal_unreadable _ _ _ Hfail) in Hrun.
  eexists. split; [exact Hrun|]. cbn [cout cerr]. split_and!.
  - unfold complaint. destruct (files w !! a); [|done].
    destruct Hfail as [?| ->]; done.
  - done.
  - intros js em fm mf pr Hout. split.
    + cbn [CompareMatchingKeys_j]. rewrite decide_False by done.
      by rewrite (bind_Some _ _ _ _ _ Hrun).
    + match goal with |- is_Some (_ ?w1) =>
        destruct (CompareMatchingKeys_j_spec a js em fm mf pr w1)
          as (r & w' & cs & Hj & _) end.
      rewrite Hj. by eexists.
Qed.

Lemma CompareFiles_open_failure_witness :
  (files three_files_world !! "r/a" = None ∨ files three_files_world !! "r/x" = None)
  ∧ ∃ w', CompareFiles "r/a" "r/x" three_files_world = Some (false, w')
        ∧ cout w' = cout three_files_world
                    ++ [Str "Could not open: ";
                        Str (match files three_files_world !! "r/a" with
                             | None => "r/a" | Some _ => "r/x" end);
                        Endl]
        ∧ cerr w' = cerr three_files_world
        ∧ ∀ js em first_match match_found printed,
            "r/a" ∉ em →
            CompareMatchingKeys_j "r/a" ("r/x" :: js) em first_match match_found printed
              three_files_world
            = CompareMatchingKeys_j "r/a" js em first_match match_found printed w'
            ∧ is_Some (CompareMatchingKeys_j "r/a" js em first_match match_found
                         printed w').
Proof.
  assert (H : files three_files_world !! "r/a" = None
              ∨ files three_files_world !! "r/x" = None)
    by (right; reflexivity).
  split; [exact H|]. exact (CompareFiles_open_failure "r/a" "r/x" _ H).
Defined.

(** Claim C6 as stated fails: nothing reaches standard error. *)
Lemma open_failure_reported_on_cout :
  ∃ w', CompareFiles "a" "b" (boot [("b", bytes "x")]) = Some (false, w')
        ∧ cerr w' = []
        ∧ cout w' = [Str "Could not open: "; Str "a"; Endl].
Proof. vm_compute. by eexists. Qed.

(** Claim C7, as the code has it: two empty files compare equal after one
    round of the loop, in which one [fread] of 64 bytes is issued on each
    stream and transfers nothing. *)
Theorem CompareFiles_empty_files a b w :
  files w !! a = Some [] → files w !! b = Some [] →
  ∃ w', CompareFiles a b w = Some (true, w')
        ∧ reads (trace w') = reads (trace w) ++ [(a, 64%N, 0%N); (b, 64%N, 0%N)].
Proof.
  intros Ha Hb. unfold CompareFiles, fopen.
  unfold mbind, M_bind, mret, M_ret, modify, log, print_cout. cbn.
  rewrite Ha. cbn. rewrite Hb. cbn.
  eexists. split; [reflexivity|]. cbn.
  unfold reads. rewrite <- !app_assoc, omap_app. done.
Qed.

Lemma CompareFiles_empty_files_witness :
  let w := boot [("a", []); ("b", [])] in
  files w !! "a" = Some [] ∧ files w !! "b" = Some []
  ∧ ∃ w', CompareFiles "a" "b" w = Some (true, w')
          ∧ reads (trace w') = reads (trace w) ++ [("a", 64%N, 0%N); ("b", 64%N, 0%N)].
Proof.
  split; [reflexivity|]. split; [reflexivity|].
  exact (CompareFiles_empty_files "a" "b" (boot [("a", []); ("b", [])])
           eq_refl eq_refl).
Defined.

(** Claim C7 as stated fails: each of the two empty files is read once before
    the verdict. *)
Lemma empty_files_are_read :
  let w := boot [("a", []); ("b", [])] in
  files w !! "a" = Some [] ∧ files w !! "b" = Some []
  ∧ ∃ w', CompareFiles "a" "b" w = Some (true, w')
          ∧ reads (trace w') = [("a", 64%N, 0%N); ("b", 64%N, 0%N)]
          ∧ reads (trace w') ≠ reads (trace w).
Proof. vm_compute. split_and!; [done..|]. by eexists. Qed.

(** ** The clustering loop *)




(** Disjoint clusters under a transitive verdict: on a tree whose paths are
    distinct, if the comparator's verdict is transitive within every size
    bucket then the run completes and no path occurs twice in the clusters it
    emits. *)
Theorem clusters_disjoint_when_transitive dir_path entries w :
  NoDup (walk entries).*1 →
  (∀ k, trans_on (verdict w) (bucket (BuildFileMap_entries entries FileUtils_new) k)) →
  ∃ this' w' ks,
    FindDups dir_path (Listing entries) FileUtils_new w = Some (Returned this', w')
    ∧ clusters (trace w') = clusters (trace w) ++ ks
    ∧ NoDup (concat ks)
    ∧ ∀ p, p ∈ concat ks → p ∈ (walk entries).*1.
Proof.
  intros Hnd Htrans.
  destruct (FindDups_spec dir_path entries w)
    as (this' & w' & cs & ks & Hrun & Hev & _ & _ & _ & Hks).
  exists this', w', ks. split; [done|]. split; [apply Hev|].
  rewrite (Hks Hnd).
  set (keys := set_iteration _).
  destruct (buckets_clusters_sound (Equal (files w))
              (map (λ k, bucket_of k (walk entries)) keys) ∅) as (H1 & H2 & _).
  - apply buckets_of_NoDup; [done|apply NoDup_set_iteration].
  - apply Forall_fmap, Forall_true. intros k. apply Equal_sym_on.
  - apply Forall_fmap, Forall_true. intros k. simpl.
    rewrite <- BuildFileMap_bucket.
    apply (trans_on_ext (verdict w)); [apply verdict_Equal|apply Htrans].
  - set_solver.
  - split; [done|]. intros p Hp. apply H2 in Hp.
    apply elem_of_concat in Hp as (l & Hpl & Hl).
    apply list_elem_of_fmap in Hl as (k & -> & _).
    by apply bucket_of_subseteq in Hpl.
Qed.

Lemma clusters_disjoint_when_transitive_witness :
  NoDup (walk nested_tree).*1
  ∧ (∀ k, trans_on (verdict nested_world)
                   (bucket (BuildFileMap_entries nested_tree FileUtils_new) k))
  ∧ ∃ this' w' ks,
      FindDups "r" (Listing nested_tree) FileUtils_new nested_world = Some (Returned this', w')
      ∧ clusters (trace w') = clusters (trace nested_world) ++ ks
      ∧ NoDup (concat ks)
      ∧ ∀ p, p ∈ concat ks → p ∈ (walk nested_tree).*1.
Proof.
  assert (H1 : NoDup (walk nested_tree).*1)
    by (apply (bool_decide_unpack _); reflexivity).
  assert (H2 : ∀ k, trans_on (verdict nested_world)
                             (bucket (BuildFileMap_entries nested_tree FileUtils_new) k)).
  { intros k. rewrite BuildFileMap_bucket.
    apply (trans_on_subseteq _ _ _ (bucket_of_subseteq k _)).
    apply trans_check_sound. vm_compute. reflexivity. }
  split; [exact H1|]. split; [exact H2|].
  exact (clusters_disjoint_when_transitive "r" nested_tree nested_world H1 H2).
Defined.

(** Claim C2 is broken by the code: with an empty file and two files of 2^32
    bytes that begin with 64 zero bytes and differ after them, the run prints
    the empty file in two clusters.  Two defects meet: [int size] cuts the
    size 2^32 down to key 0, so that all three files are filed in one bucket
    although only files of one size were to be compared, and [CompareFiles]
    declares each large file equal to the empty one. *)
Lemma path_reported_twice :
  walk big_tree = [("r/b", 4294967296%N); ("r/c", 4294967296%N); ("r/a", 0%N)]
  ∧ N.of_nat (length (zeros 64 ++ Byte.x01 :: zeros 4294967231)) = 4294967296%N
  ∧ N.of_nat (length (zeros 64 ++ Byte.x02 :: zeros 4294967231)) = 4294967296%N
  ∧ ∃ this' w',
      FindDups "r" (Listing big_tree) FileUtils_new big_world = Some (Returned this', w')
      ∧ clusters (trace w') = [["r/b"; "r/a"]; ["r/c"; "r/a"]].
Proof.
  assert (Hlen : ∀ b, N.of_nat (length (zeros 64 ++ b :: zeros 4294967231))
                      = 4294967296%N).
  { intros b. rewrite length_app, length_cons, Nat2N.inj_add, Nat2N.inj_succ.
    rewrite !length_zeros. reflexivity. }
  split_and!; [reflexivity|apply Hlen..|apply big_tree_run].
Qed.

(** ** The index *)

(** The collision set.  After [BuildFileMap] on a tree of distinct paths,
    [matching_keys] holds exactly the keys whose bucket has more than one
    path; filing a file never removes a key and adds the file's key as soon
    as its bucket has two members; [CompareMatchingKeys] compares only paths
    of one such bucket; and a file whose [int] key no other file shares is
    never compared. *)
Theorem matching_keys_exact dir_path entries w :
  NoDup (walk entries).*1 →
  let this := BuildFileMap_entries entries FileUtils_new in
  (∀ k, k ∈ matching_keys this ↔ ∃ l, file_map this !! k = Some l ∧ 1 < length l)
  ∧ (∀ path fsize t,
       matching_keys t ⊆ matching_keys (BuildFileMap_file path fsize t)
       ∧ (1 < length (bucket (BuildFileMap_file path fsize t) (key_of fsize)) →
          key_of fsize ∈ matching_keys (BuildFileMap_file path fsize t)))
  ∧ ∃ this' w' cs,
      FindDups dir_path (Listing entries) FileUtils_new w = Some (Returned this', w')
      ∧ compared (trace w') = compared (trace w) ++ cs
      ∧ (∀ a b, (a, b) ∈ cs →
           ∃ k, k ∈ matching_keys this ∧ a ∈ bucket this k ∧ b ∈ bucket this k)
      ∧ (∀ p s, (p, s) ∈ walk entries →
           (∀ q t, (q, t) ∈ walk entries → key_of t = key_of s → q = p) →
           ∀ a b, (a, b) ∈ cs → a ≠ p ∧ b ≠ p).
Proof.
  intros Hnd this. split_and!.
  - intros k. unfold this. rewrite BuildFileMap_keys, <- BuildFileMap_bucket.
    unfold bucket. fold this. destruct (file_map this !! k) as [l|]; simpl.
    + split; [by exists l|]. by intros (l' & [= <-] & ?).
    + split; [lia|]. by intros (l' & [=] & ?).
  - intros path fsize t. rewrite BuildFileMap_file_keys, BuildFileMap_file_bucket.
    rewrite decide_True by done. case_bool_decide; [set_solver|done].
  - destruct (FindDups_spec dir_path entries w)
      as (this' & w' & cs & ks & Hrun & Hev & _ & _ & Hcs & _).
    exists this', w', cs. split_and!; [done|apply Hev| |].
    + intros a b Hab. rewrite Forall_forall in Hcs.
      destruct (Hcs _ Hab) as (k & Hk & Ha & Hb). exists k.
      unfold this. rewrite BuildFileMap_keys, !BuildFileMap_bucket. done.
    + intros p s Hp Honly a b Hab. rewrite Forall_forall in Hcs.
      destruct (Hcs _ Hab) as (k & Hk & Ha & Hb). simpl in Ha, Hb.
      assert (Hout : p ∉ bucket_of k (walk entries)).
      { intros (s' & Hs' & <-)%elem_of_bucket_of.
        rewrite (NoDup_fst_unique _ _ _ _ Hnd Hs' Hp) in Hk.
        destruct (NoDup_two _ (bucket_of_NoDup (key_of s) _ Hnd) Hk)
          as (x & y & Hx & Hy & Hxy).
        apply elem_of_bucket_of in Hx as (tx & Hx & Hkx), Hy as (ty & Hy & Hky).
        apply Hxy. rewrite (Honly _ _ Hx Hkx). by rewrite (Honly _ _ Hy Hky). }
      split; by intros ->.
Qed.

Lemma matching_keys_exact_witness :
  NoDup (walk mixed_tree).*1
  ∧ let this := BuildFileMap_entries mixed_tree FileUtils_new in
    (∀ k, k ∈ matching_keys this ↔ ∃ l, file_map this !! k = Some l ∧ 1 < length l)
    ∧ (∀ path fsize t,
         matching_keys t ⊆ matching_keys (BuildFileMap_file path fsize t)
         ∧ (1 < length (bucket (BuildFileMap_file path fsize t) (key_of fsize)) →
            key_of fsize ∈ matching_keys (BuildFileMap_file path fsize t)))
    ∧ ∃ this' w' cs,
        FindDups "r" (Listing mixed_tree) FileUtils_new mixed_world = Some (Returned this', w')
        ∧ compared (trace w') = compared (trace mixed_world) ++ cs
        ∧ (∀ a b, (a, b) ∈ cs →
             ∃ k, k ∈ matching_keys this ∧ a ∈ bucket this k ∧ b ∈ bucket this k)
        ∧ (∀ p s, (p, s) ∈ walk mixed_tree →
             (∀ q t, (q, t) ∈ walk mixed_tree → key_of t = key_of s → q = p) →
             ∀ a b, (a, b) ∈ cs → a ≠ p ∧ b ≠ p).
Proof.
  assert (H : NoDup (walk mixed_tree).*1) by (apply (bool_decide_unpack _); reflexivity).
  split; [exact H|]. exact (matching_keys_exact "r" mixed_tree mixed_world H).
Defined.

(** Claim C8 is broken by the code: an empty file and a file of 2^32 bytes
    have sizes no other file of the tree has, yet [int size = file_size(...)]
    gives both the key 0 and they are handed to the comparator, against the
    comment of [BuildFileMap] that files are compared only if they have the
    same size. *)
Lemma unique_size_compared :
  walk wrap_tree = [("r/a", 0%N); ("r/b", 4294967296%N)]
  ∧ N.of_nat (length (zeros 4294967296)) = 4294967296%N
  ∧ ∃ this' w',
      FindDups "r" (Listing wrap_tree) FileUtils_new wrap_world = Some (Returned this', w')
      ∧ compared (trace w') = [("r/a", "r/b")].
Proof.
  split; [reflexivity|]. split; [apply length_zeros|].
  apply (two_files_compared "r" "r/a" 0 "r/b" 4294967296 wrap_world); [done|reflexivity].
Qed.

(** Claim C10.  A file is filed under [key_of] its size: the size reduced
    modulo 2^32 into the range of [int].  The key is the size up to
    [INT_MAX] and is smaller than the size (wrapped, possibly negative) above
    it; sizes that differ by a multiple of 2^32 get one key, so two such files
    share a bucket and are compared; and the total [PrintMapStats] reports is
    the sum of the keys, not of the sizes, divided by 2^20. *)
Theorem size_key_truncation :
  (∀ path fsize this,
     path ∈ bucket (BuildFileMap_file path fsize this) (key_of fsize))
  ∧ (∀ fsize, (key_of fsize mod 2 ^ 32 = Z.of_N fsize mod 2 ^ 32)%Z
              ∧ (- 2 ^ 31 ≤ key_of fsize < 2 ^ 31)%Z)
  ∧ (∀ fsize, (Z.of_N fsize ≤ 2147483647)%Z → key_of fsize = Z.of_N fsize)
  ∧ (∀ fsize, (2147483647 < Z.of_N fsize)%Z → (key_of fsize < Z.of_N fsize)%Z)
  ∧ (∀ s1 s2 n, (s2 = s1 + n * 4294967296)%N → key_of s1 = key_of s2)
  ∧ (∀ dir_path p1 s1 p2 s2 w,
       p1 ≠ p2 → key_of s1 = key_of s2 →
       ∃ this' w',
         FindDups dir_path (Listing [RegularFile p1 s1; RegularFile p2 s2]) FileUtils_new w
         = Some (Returned this', w')
         ∧ (∃ k, p1 ∈ bucket this' k ∧ p2 ∈ bucket this' k)
         ∧ compared (trace w') = compared (trace w) ++ [(p1, p2)])
  ∧ (∀ entries w,
       ∃ num_files,
         PrintMapStats (BuildFileMap_entries entries FileUtils_new) w
         = Some (tt, World (files w) (handles w)
                   (cout w ++ [Str "-- Stats -- \n";
                               Str "Number of files scanned: "; Num num_files; Endl;
                               Str "Total data compared:     ";
                               Dbl (Z2Qc (keys_total (walk entries)) / Z2Qc 1048576)%Qc;
                               Str "MB"; Endl])
                   (cerr w) (trace w))).
Proof.
  split_and!.
  - intros path fsize this. rewrite BuildFileMap_file_bucket, decide_True by done.
    apply elem_of_app. right. by left.
  - intros fsize. split; [apply key_of_mod|apply key_of_range].
  - intros fsize H. apply key_of_small. lia.
  - intros fsize H. apply key_of_large. lia.
  - apply key_of_wrap.
  - intros dir_path p1 s1 p2 s2 w Hp Hk.
    destruct (two_files_compared dir_path p1 s1 p2 s2 w Hp Hk) as (this' & w' & Hrun & Hc).
    exists this', w'. split_and!; [done| |done].
    destruct (FindDups_spec dir_path [RegularFile p1 s1; RegularFile p2 s2] w)
      as (this2 & w2 & cs & ks & Hrun2 & _ & Hb & _).
    rewrite Hrun in Hrun2. injection Hrun2 as <- <-.
    exists (key_of s1). rewrite !Hb. split; apply elem_of_bucket_of.
    + exists s1. split; [by left|done].
    + exists s2. split; [right; by left|done].
  - intros entries w.
    destruct (PrintMapStats_total (BuildFileMap_entries entries FileUtils_new) w)
      as (n & Hrun).
    exists n. by rewrite <- index_total_walk.
Qed.

Lemma size_key_truncation_witness :
  ((2147483647 < Z.of_N 3221225472)%Z ∧ (key_of 3221225472 < Z.of_N 3221225472)%Z)
  ∧ ((4294967296 = 0 + 1 * 4294967296)%N ∧ key_of 0 = key_of 4294967296)
  ∧ ("r/a" ≠ "r/b" ∧ key_of 0 = key_of 4294967296
     ∧ ∃ this' w',
         FindDups "r" (Listing [RegularFile "r/a" 0; RegularFile "r/b" 4294967296])
           FileUtils_new wrap_world
         = Some (Returned this', w')
         ∧ (∃ k, "r/a" ∈ bucket this' k ∧ "r/b" ∈ bucket this' k)
         ∧ compared (trace w') = compared (trace wrap_world) ++ [("r/a", "r/b")]).
Proof.
  destruct size_key_truncation as (_ & _ & _ & Hlarge & Hwrap & Hcmp & _).
  assert (H1 : (2147483647 < Z.of_N 3221225472)%Z) by reflexivity.
  assert (H2 : (4294967296 = 0 + 1 * 4294967296)%N) by reflexivity.
  assert (H3 : "r/a" ≠ "r/b") by discriminate.
  assert (H4 : key_of 0 = key_of 4294967296) by reflexivity.
  split_and!; [exact H1|exact (Hlarge _ H1)|exact H2|exact (Hwrap _ _ _ H2)
              |exact H3|exact H4|exact (Hcmp "r" _ _ _ _ wrap_world H3 H4)].
Defined.

(** ** The command line *)

(** Claim C5.  [main] builds [root] from [argv[1]] before it looks at [argc]:
    run without an argument (or with an empty [argv]) it reads an argument
    that was not supplied, and neither the usage message nor exit code 1 is
    reached. *)
Theorem main_without_argument_undefined disk w :
  main ["file_utils"] disk w = Undefined ∧ main [] disk w = Undefined.
Proof. split; reflexivity. Qed.

(** With more than one argument the usage branch is taken as intended. *)
Lemma main_too_many_arguments disk w argv0 a1 a2 rest :
  main (argv0 :: a1 :: a2 :: rest) disk w
  = Exit 1 (World (files w) (handles w) (cout w)
                  (cerr w ++ [Str "Usage: file_utils <root_directory>\n"]) (trace w)).
Proof.
  unfold main. cbn [lookup list_lookup]. simpl length.
  rewrite bool_decide_eq_true_2 by lia. reflexivity.
Qed.

(** * Scenarios of the specification *)

Example scenario_identical_files :
  ∃ this' w',
    FindDups "root" (Listing [RegularFile "root/a.txt" 11; RegularFile "root/b.txt" 11])
      FileUtils_new
      (boot [("root/a.txt", bytes "hello world"); ("root/b.txt", bytes "hello world")])
    = Some (Returned this', w')
    ∧ clusters (trace w') = [["root/a.txt"; "root/b.txt"]]
    ∧ numbers (cout w') = [2%Z]
    ∧ handles w' = [].
Proof. vm_compute. by do 2 eexists. Qed.

Example scenario_same_size_different_content :
  ∃ this' w',
    FindDups "root" (Listing [RegularFile "root/a.txt" 10; RegularFile "root/b.txt" 10])
      FileUtils_new
      (boot [("root/a.txt", bytes "aaaaaaaaaa"); ("root/b.txt", bytes "bbbbbbbbbb")])
    = Some (Returned this', w')
    ∧ clusters (trace w') = []
    ∧ numbers (cout w') = [2%Z].
Proof. vm_compute. by do 2 eexists. Qed.

Example scenario_three_way_cluster :
  let content := replicate 5000 Byte.x41 in
  ∃ this' w',
    FindDups "root"
      (Listing [RegularFile "root/a.txt" 5000; RegularFile "root/b.txt" 5000;
             RegularFile "root/c.txt" 5000])
      FileUtils_new
      (boot [("root/a.txt", content); ("root/b.txt", content); ("root/c.txt", content)])
    = Some (Returned this', w')
    ∧ clusters (trace w') = [["root/a.txt"; "root/b.txt"; "root/c.txt"]]
    ∧ compared (trace w')
      = [("root/a.txt", "root/b.txt"); ("root/a.txt", "root/c.txt")].
Proof. vm_compute. by do 2 eexists. Qed.

Example scenario_nested_directories :
  ∃ this' w',
    FindDups "root"
      (Listing [Directory "root/x" [RegularFile "root/x/f" 3];
             Directory "root/y" [Directory "root/y/z" [RegularFile "root/y/z/g" 3]]])
      FileUtils_new
      (boot [("root/x/f", bytes "dup"); ("root/y/z/g", bytes "dup")])
    = Some (Returned this', w')
    ∧ clusters (trace w') = [["root/x/f"; "root/y/z/g"]].
Proof. vm_compute. by do 2 eexists. Qed.

Example scenario_unreadable_file :
  ∃ this' w',
    FindDups "root" (Listing [RegularFile "root/a.txt" 4; RegularFile "root/b.txt" 4])
      FileUtils_new (boot [("root/b.txt", bytes "same")])
    = Some (Returned this', w')
    ∧ clusters (trace w') = []
    ∧ compared (trace w') = [("root/a.txt", "root/b.txt")]
    ∧ cerr w' = [].
Proof. vm_compute. by do 2 eexists. Qed.

(** * Further properties of the code *)

(** ** CompareFiles *)

(** Both files open: the verdict is that of the loop, nothing is printed and
    both streams are closed again. *)
Lemma CompareFiles_both_open a b w da db :
  files w !! a = Some da → files w !! b = Some db →
  ∃ r w', rounds (S (length da)) da db 0 0 = Some r
          ∧ CompareFiles a b w = Some (r, w')
          ∧ files w' = files w ∧ handles w' = handles w
          ∧ cout w' = cout w ∧ cerr w' = cerr w.
Proof.
  intros Ha Hb.
  destruct (CompareFiles_spec a b w) as (rs & _ & Hrun).
  destruct (rounds_total (S (length da)) da db 0 0 schedule_ok_start ltac:(lia))
    as [r Hr].
  exists r. eexists. split; [done|]. split.
  - rewrite Hrun. unfold Equal. rewrite Ha, Hb, Hr. reflexivity.
  - unfold leaked, complaint. rewrite Ha, Hb. simpl. by rewrite app_nil_r.
Qed.

(** On two files of one length [CompareFiles] decides byte-identity, prints
    nothing and leaves no stream open. *)
Theorem CompareFiles_decides_equal_length a b w da db :
  files w !! a = Some da → files w !! b = Some db → length da = length db →
  ∃ w', CompareFiles a b w = Some (bool_decide (da = db), w')
        ∧ files w' = files w ∧ handles w' = handles w
        ∧ cout w' = cout w ∧ cerr w' = cerr w.
Proof.
  intros Ha Hb Hlen.
  destruct (CompareFiles_both_open a b w da db Ha Hb) as (r & w' & Hr & Hrun & H).
  exists w'. split; [|done].
  by rewrite Hrun, (rounds_same_length _ _ _ _ _ _ schedule_ok_start Hlen Hr).
Qed.

Lemma CompareFiles_decides_equal_length_witness :
  files three_files_world !! "r/a" = Some (bytes "xx")
  ∧ files three_files_world !! "r/b" = Some (bytes "yy")
  ∧ length (bytes "xx") = length (bytes "yy")
  ∧ ∃ w', CompareFiles "r/a" "r/b" three_files_world
          = Some (bool_decide (bytes "xx" = bytes "yy"), w')
          ∧ files w' = files three_files_world
          ∧ handles w' = handles three_files_world
          ∧ cout w' = cout three_files_world ∧ cerr w' = cerr three_files_world.
Proof.
  split; [reflexivity|]. split; [reflexivity|]. split; [reflexivity|].
  exact (CompareFiles_decides_equal_length "r/a" "r/b" three_files_world
           (bytes "xx") (bytes "yy") eq_refl eq_refl eq_refl).
Defined.

(** A file compared with itself: true when it can be opened, false when it
    cannot. *)
Theorem CompareFiles_reflexive_iff_readable a w :
  ∃ w', CompareFiles a a w = Some (bool_decide (is_Some (files w !! a)), w').
Proof.
  destruct (files w !! a) as [da|] eqn:Ha.
  - destruct (CompareFiles_both_open a a w da da Ha Ha) as (r & w' & Hr & Hrun & _).
    exists w'. rewrite Hrun.
    rewrite (rounds_same_length _ _ _ _ _ _ schedule_ok_start eq_refl Hr).
    by rewrite !bool_decide_eq_true_2 by (done || by eexists).
  - destruct (CompareFiles_spec a a w) as (rs & _ & Hrun).
    rewrite Equal_unreadable in Hrun by auto. eexists. rewrite Hrun.
    by rewrite bool_decide_eq_false_2 by (by intros [? ?]).
Qed.

Lemma filled_lookup size r k :
  k < N.to_nat size → k < length r → filled size r !! k = r !! k.
Proof.
  intros Hk Hr. unfold filled.
  rewrite lookup_app_l by (rewrite length_take; lia).
  by rewrite lookup_take_lt.
Qed.

Lemma rounds_differ fuel : ∀ r1 r2 size pass k x y b,
  schedule_ok size pass →
  r1 !! k = Some x → r2 !! k = Some y → x ≠ y →
  rounds fuel r1 r2 size pass = Some b → b = false.
Proof.
  induction fuel as [|fuel IH]; intros r1 r2 size pass k x y b Hok H1 H2 Hxy; [done|].
  simpl. destruct (next_size size pass) as [size' pass'] eqn:Hn.
  destruct (next_size_ok _ _ _ _ Hok Hn) as [Hpos Hok'].
  rewrite memcmp_filled.
  pose proof (lookup_lt_Some _ _ _ H1) as Hl1.
  pose proof (lookup_lt_Some _ _ _ H2) as Hl2.
  case_bool_decide as Heq; simpl; [|by intros [= <-]].
  destruct (decide (k < N.to_nat size')) as [Hk|Hk].
  - exfalso. apply Hxy.
    assert (Hfk : filled size' r1 !! k = filled size' r2 !! k) by by rewrite Heq.
    rewrite !filled_lookup in Hfk by done. congruence.
  - rewrite !bool_decide_eq_true_2 by lia. simpl.
    apply (IH _ _ _ _ (k - N.to_nat size') x y); [done| | |done].
    + rewrite lookup_drop. rewrite <- H1. f_equal. lia.
    + rewrite lookup_drop. rewrite <- H2. f_equal. lia.
Qed.

(** A byte that differs at an offset both files have makes [CompareFiles]
    return false: when it returns true the shorter file is a prefix of the
    longer one. *)
Theorem CompareFiles_true_agrees_on_common_prefix a b w da db :
  files w !! a = Some da → files w !! b = Some db →
  ∃ r w', CompareFiles a b w = Some (r, w')
          ∧ (r = true → take (length db) da = take (length da) db).
Proof.
  intros Ha Hb.
  destruct (CompareFiles_both_open a b w da db Ha Hb) as (r & w' & Hr & Hrun & _).
  exists r, w'. split; [done|]. intros ->.
  apply list_eq. intros k.
  destruct (decide (k < length da ∧ k < length db)) as [[H1 H2]|Hk].
  - rewrite !lookup_take_lt by done.
    destruct (lookup_lt_is_Some_2 da k H1) as [x Hx].
    destruct (lookup_lt_is_Some_2 db k H2) as [y Hy].
    rewrite Hx, Hy. f_equal. destruct (decide (x = y)) as [|Hxy]; [done|].
    by pose proof (rounds_differ _ _ _ _ _ _ _ _ _ schedule_ok_start Hx Hy Hxy Hr).
  - rewrite !lookup_ge_None_2; [done|rewrite length_take; lia..].
Qed.

Lemma CompareFiles_true_agrees_on_common_prefix_witness :
  files three_files_world !! "r/a" = Some (bytes "xx")
  ∧ files three_files_world !! "r/c" = Some (bytes "xx")
  ∧ ∃ r w', CompareFiles "r/a" "r/c" three_files_world = Some (r, w')
            ∧ (r = true →
               take (length (bytes "xx")) (bytes "xx")
               = take (length (bytes "xx")) (bytes "xx")).
Proof.
  split; [reflexivity|]. split; [reflexivity|].
  exact (CompareFiles_true_agrees_on_common_prefix "r/a" "r/c" three_files_world
           (bytes "xx") (bytes "xx") eq_refl eq_refl).
Defined.

Lemma loop_mismatch_now fuel if1 if2 size pass size' pass' w :
  next_size size pass = (size', pass') →
  filled size' (f_rest if1) ≠ filled size' (f_rest if2) →
  CompareFiles_loop (S fuel) if1 if2 size pass w
  = Some (false,
          World (files w)
                (remove_first (f_path if2) (remove_first (f_path if1) (handles w)))
                (cout w) (cerr w)
                (trace w ++ [EvRead (f_path if1) size'
                               (N.of_nat (length (take (N.to_nat size') (f_rest if1))));
                             EvRead (f_path if2) size'
                               (N.of_nat (length (take (N.to_nat size') (f_rest if2))))])).
Proof.
  destruct if1 as [p1 r1 e1], if2 as [p2 r2 e2]. intros Hn Hne.
  cbn [CompareFiles_loop].
  change (if (pass <? MAX_PASS)%N then _ else _) with (next_size size pass).
  rewrite Hn.
  unfold mbind, M_bind, mret, M_ret, modify, log, fclose, fread. simpl.
  fold (filled size' r1) (filled size' r2). rewrite memcmp_filled.
  simpl in Hne. rewrite bool_decide_eq_false_2 by done. simpl.
  by rewrite <- app_assoc.
Qed.

(** Short circuit: files that differ within their first 64 bytes are told
    apart after one [fread] of 64 bytes on each, and both streams are closed. *)
Theorem CompareFiles_first_block_mismatch a b w da db k x y :
  files w !! a = Some da → files w !! b = Some db →
  k < 64 → da !! k = Some x → db !! k = Some y → x ≠ y →
  ∃ w', CompareFiles a b w = Some (false, w')
        ∧ reads (trace w')
          = reads (trace w) ++ [(a, 64%N, N.of_nat (length da `min` 64));
                                (b, 64%N, N.of_nat (length db `min` 64))]
        ∧ handles w' = handles w.
Proof.
  intros Ha Hb Hk Hx Hy Hxy. unfold CompareFiles, fopen.
  unfold mbind, M_bind, mret, M_ret, modify, log.
  cbn -[CompareFiles_loop]. rewrite Ha. cbn -[CompareFiles_loop]. rewrite Hb.
  cbn -[CompareFiles_loop].
  rewrite (loop_mismatch_now _ _ _ 0 0 64 1); [|reflexivity|].
  - eexists. split; [reflexivity|]. cbn [trace handles f_path f_rest]. split.
    + unfold reads. rewrite !omap_app. cbn [omap]. rewrite !length_take.
      rewrite app_nil_r. change (N.to_nat 64) with 64.
      by rewrite (Nat.min_comm 64 (length da)), (Nat.min_comm 64 (length db)).
    + apply remove_first_both.
  - cbn [f_rest]. intros Heq.
    assert (Hfk : filled 64 da !! k = filled 64 db !! k) by by rewrite Heq.
    pose proof (lookup_lt_Some _ _ _ Hx). pose proof (lookup_lt_Some _ _ _ Hy).
    rewrite !filled_lookup in Hfk by (done || (change (N.to_nat 64) with 64; lia)).
    congruence.
Qed.

Lemma CompareFiles_first_block_mismatch_witness :
  files three_files_world !! "r/a" = Some (bytes "xx")
  ∧ files three_files_world !! "r/b" = Some (bytes "yy")
  ∧ 1 < 64 ∧ bytes "xx" !! 1 = Some Byte.x78 ∧ bytes "yy" !! 1 = Some Byte.x79
  ∧ Byte.x78 ≠ Byte.x79
  ∧ ∃ w', CompareFiles "r/a" "r/b" three_files_world = Some (false, w')
        ∧ reads (trace w')
          = reads (trace three_files_world)
            ++ [("r/a", 64%N, N.of_nat (length (bytes "xx") `min` 64));
                ("r/b", 64%N, N.of_nat (length (bytes "yy") `min` 64))]
        ∧ handles w' = handles three_files_world.
Proof.
  assert (H1 : 1 < 64) by lia.
  assert (H2 : Byte.x78 ≠ Byte.x79) by discriminate.
  split_and!; [reflexivity|reflexivity|exact H1|reflexivity|reflexivity|exact H2|].
  exact (CompareFiles_first_block_mismatch "r/a" "r/b" three_files_world
           (bytes "xx") (bytes "yy") 1 Byte.x78 Byte.x79
           eq_refl eq_refl H1 eq_refl eq_refl H2).
Defined.

Lemma BUFFER_SIZE_elem pass :
  (pass < MAX_PASS)%N → default 0%N (BUFFER_SIZE !! N.to_nat pass) ∈ BUFFER_SIZE.
Proof.
  unfold MAX_PASS. intros H.
  assert (Hc : (pass = 0 ∨ pass = 1 ∨ pass = 2 ∨ pass = 3 ∨ pass = 4 ∨ pass = 5)%N)
    by lia.
  unfold BUFFER_SIZE.
  repeat (destruct Hc as [Hc|Hc]; [subst pass; simpl; set_solver|]).
  subst pass; simpl; set_solver.
Qed.

Lemma next_size_stage size pass size' pass' :
  stage_ok size pass → next_size size pass = (size', pass') →
  size' ∈ BUFFER_SIZE ∧ stage_ok size' pass'.
Proof.
  unfold next_size, stage_ok. intros Hok.
  destruct (pass <? MAX_PASS)%N eqn:Hp; intros [= <- <-].
  - apply N.ltb_lt in Hp. pose proof (BUFFER_SIZE_elem pass Hp). auto.
  - apply N.ltb_ge in Hp. destruct Hok; [lia|auto].
Qed.

Lemma staged_rounds_cons a b n k1 k2 rs :
  n ∈ BUFFER_SIZE → staged_rounds a b rs →
  staged_rounds a b (EvRead a n k1 :: EvRead b n k2 :: rs).
Proof. simpl. auto. Qed.

Lemma loop_trace fuel : ∀ if1 if2 size pass w r w',
  stage_ok size pass →
  CompareFiles_loop fuel if1 if2 size pass w = Some (r, w') →
  ∃ rs, trace w' = trace w ++ rs
        ∧ staged_rounds (f_path if1) (f_path if2) rs ∧ rs ≠ [].
Proof.
  induction fuel as [|fuel IH]; intros [p1 r1 e1] [p2 r2 e2] size pass w r w' Hok;
    [done|].
  cbn [CompareFiles_loop].
  change (if (pass <? MAX_PASS)%N then _ else _) with (next_size size pass).
  destruct (next_size size pass) as [size' pass'] eqn:Hn.
  destruct (next_size_stage _ _ _ _ Hok Hn) as [Hin Hok'].
  unfold mbind, M_bind, mret, M_ret, modify, log, fclose, fread. simpl.
  set (ev1 := EvRead p1 size' _). set (ev2 := EvRead p2 size' _).
  match goal with |- context [negb ?c] => destruct (negb c) end.
  { intros [= _ <-]. exists [ev1; ev2]. cbn [trace].
    rewrite <- app_assoc. split_and!; [done| |done].
    by apply staged_rounds_cons. }
  destruct (_ && _).
  - intros Hrun. apply IH in Hrun as (rs & -> & Hrs & _); [|done].
    exists (ev1 :: ev2 :: rs). cbn [trace f_path] in *.
    rewrite <- !app_assoc. split_and!; [done| |done].
    by apply staged_rounds_cons.
  - intros [= _ <-]. exists [ev1; ev2]. cbn [trace].
    rewrite <- app_assoc. split_and!; [done| |done].
    by apply staged_rounds_cons.
Qed.

(** When both files open, [CompareFiles] reads in rounds: at least one round,
    and in every round one [fread] on each file, first [file1] then [file2],
    both for the same size, which is one of the six of [BUFFER_SIZE]. *)
Theorem CompareFiles_reads_are_staged a b w :
  is_Some (files w !! a) → is_Some (files w !! b) →
  ∃ r w' rs,
    CompareFiles a b w = Some (r, w')
    ∧ trace w' = trace w ++ EvCompare a b :: rs
    ∧ staged_rounds a b rs ∧ rs ≠ [].
Proof.
  intros [da Ha] [db Hb].
  destruct (CompareFiles_both_open a b w da db Ha Hb) as (r & w' & _ & Hrun & _).
  exists r, w'. revert Hrun. unfold CompareFiles, fopen.
  unfold mbind, M_bind, mret, M_ret, modify, log.
  cbn -[CompareFiles_loop]. rewrite Ha. cbn -[CompareFiles_loop]. rewrite Hb.
  intros Hrun. pose proof Hrun as Hrun'.
  apply loop_trace in Hrun as (rs & -> & Hrs & Hne); [|by left].
  exists rs. cbn [trace f_path] in *. split; [done|]. by rewrite <- app_assoc.
Qed.

Lemma CompareFiles_reads_are_staged_witness :
  is_Some (files three_files_world !! "r/a")
  ∧ is_Some (files three_files_world !! "r/c")
  ∧ ∃ r w' rs,
      CompareFiles "r/a" "r/c" three_files_world = Some (r, w')
      ∧ trace w' = trace three_files_world ++ EvCompare "r/a" "r/c" :: rs
      ∧ staged_rounds "r/a" "r/c" rs ∧ rs ≠ [].
Proof.
  assert (H1 : is_Some (files three_files_world !! "r/a")) by (by eexists).
  assert (H2 : is_Some (files three_files_world !! "r/c")) by (by eexists).
  split; [exact H1|]. split; [exact H2|].
  exact (CompareFiles_reads_are_staged "r/a" "r/c" three_files_world H1 H2).
Defined.

(** ** BuildFileMap *)



(** ** FindDups and main on a root that cannot be walked *)

Lemma c_str_plain s :
  (∀ c, c ∈ String.list_ascii_of_string s → c ≠ "000"%char) → c_str s = s.
Proof.
  induction s as [|c s IH]; simpl; [done|]. intros H.
  destruct (Ascii.eqb_spec c "000"%char) as [->|_].
  - exfalso. by apply (H "000"%char); [left|].
  - rewrite IH; [done|]. intros c' Hc'. apply H. by right.
Qed.

Lemma quoted_chars_plain s :
  (∀ c, c ∈ String.list_ascii_of_string s → c ≠ dquote ∧ c ≠ "&"%char) →
  quoted_chars s = (s ++ String dquote EmptyString)%string.
Proof.
  induction s as [|c s IH]; simpl; [done|]. intros H.
  destruct (H c ltac:(by left)) as [H1 H2].
  destruct (Ascii.eqb_spec c dquote) as [->|_]; [done|].
  destruct (Ascii.eqb_spec c "&"%char) as [->|_]; [done|]. simpl.
  rewrite IH; [done|]. intros c' Hc'. apply H. by right.
Qed.

(** [FindDups] does not look at what [BuildFileMap] returns: on a root that
    does not exist it complains on [std::cerr], the path written as
    [operator<<] of [boost::filesystem::path] writes it, and still prints the
    header of the matches and the statistics of an empty index, opening no
    file.  A path without NUL, double quote and [&] is written as it is,
    between double quotes. *)
Theorem FindDups_missing_root dir_path w :
  (∃ this' w',
     FindDups dir_path Absent FileUtils_new w = Some (Returned this', w')
     ∧ this' = FileUtils_new
     ∧ cerr w' = cerr w ++ [Str "Root directory"; Str (quoted (c_str dir_path));
                            Str "does not exist\n"]
     ∧ cout w' = cout w ++ [Str "Matching Files: \n"; Str "-- Stats -- \n";
                            Str "Number of files scanned: "; Num 0; Endl;
                            Str "Total data compared:     "; Dbl (Z2Qc 0);
                            Str "MB"; Endl]
     ∧ trace w' = trace w ∧ handles w' = handles w)
  ∧ ((∀ c, c ∈ String.list_ascii_of_string dir_path →
           c ≠ "000"%char ∧ c ≠ dquote ∧ c ≠ "&"%char) →
     quoted (c_str dir_path)
     = String dquote (dir_path ++ String dquote EmptyString)%string).
Proof.
  split.
  - do 2 eexists. split; [reflexivity|]. cbn. split_and!; try done.
    by rewrite <- app_assoc.
  - intros H. unfold quoted. rewrite c_str_plain by (intros c Hc; by apply H).
    rewrite quoted_chars_plain; [done|]. intros c Hc. by apply H.
Qed.

Lemma FindDups_missing_root_witness :
  (∀ c, c ∈ String.list_ascii_of_string "nowhere" →
        c ≠ "000"%char ∧ c ≠ dquote ∧ c ≠ "&"%char)
  ∧ (∃ this' w',
       FindDups "nowhere" Absent FileUtils_new (boot []) = Some (Returned this', w')
       ∧ this' = FileUtils_new
       ∧ cerr w' = cerr (boot []) ++ [Str "Root directory"; Str (quoted (c_str "nowhere"));
                                      Str "does not exist\n"]
       ∧ cout w' = cout (boot []) ++ [Str "Matching Files: \n"; Str "-- Stats -- \n";
                                      Str "Number of files scanned: "; Num 0; Endl;
                                      Str "Total data compared:     "; Dbl (Z2Qc 0);
                                      Str "MB"; Endl]
       ∧ trace w' = trace (boot []) ∧ handles w' = handles (boot []))
  ∧ quoted (c_str "nowhere") = String dquote ("nowhere" ++ String dquote EmptyString)%string.
Proof.
  assert (H : ∀ c, c ∈ String.list_ascii_of_string "nowhere" →
                   c ≠ "000"%char ∧ c ≠ dquote ∧ c ≠ "&"%char).
  { intros c Hc. apply list_elem_of_In in Hc. simpl in Hc.
    repeat (destruct Hc as [<-|Hc]; [by split_and!|]). destruct Hc. }
  split; [exact H|].
  destruct (FindDups_missing_root "nowhere" (boot [])) as [H1 H2].
  split; [exact H1|exact (H2 H)].
Defined.


(** ** CompareMatchingKeys and the clusters *)

Section more_clusters.
Variable same : string → string → bool.

Lemma bucket_clusters_shape curr : ∀ em c,
  c ∈ (bucket_clusters same curr em).1 →
  ∃ i ms, c = i :: ms ∧ ms ≠ [] ∧ i ∈ curr
          ∧ ∀ j, j ∈ ms → j ∈ curr ∧ same i j = true.
Proof.
  induction curr as [|i rest IH]; intros em c; [by intros ?%elem_of_nil|].
  assert (Hrest : ∀ em', c ∈ (bucket_clusters same rest em').1 →
            ∃ i0 ms, c = i0 :: ms ∧ ms ≠ [] ∧ i0 ∈ i :: rest
                     ∧ ∀ j, j ∈ ms → j ∈ i :: rest ∧ same i0 j = true).
  { intros em' Hc. destruct (IH em' c Hc) as (i0 & ms & -> & Hne & Hi0 & Hms).
    exists i0, ms. split_and!; [done|done|by right|].
    intros j Hj. destruct (Hms j Hj). split; [by right|done]. }
  cbn [bucket_clusters].
  destruct (decide (i ∈ em)); [apply Hrest|].
  destruct (filter (λ j, same i j = true) rest) as [|m ms] eqn:Hms; [apply Hrest|].
  destruct (bucket_clusters same rest _) as [ks em'] eqn:Hrec. cbn [fst].
  intros [->|Hc]%elem_of_cons.
  - exists i, (m :: ms). split_and!; [done|done|by left|].
    intros j Hj. rewrite <- Hms in Hj. apply list_elem_of_filter in Hj as [? ?].
    split; [by right|done].
  - apply (Hrest ({[i]} ∪ (list_to_set (m :: ms) ∪ em))). by rewrite Hrec.
Qed.

Lemma buckets_clusters_shape buckets : ∀ em c,
  c ∈ (buckets_clusters same buckets em).1 →
  ∃ curr i ms, curr ∈ buckets ∧ c = i :: ms ∧ ms ≠ [] ∧ i ∈ curr
               ∧ ∀ j, j ∈ ms → j ∈ curr ∧ same i j = true.
Proof.
  induction buckets as [|curr rest IH]; intros em c; [by intros ?%elem_of_nil|].
  cbn [buckets_clusters].
  pose proof (bucket_clusters_shape curr em c) as Hcurr.
  destruct (bucket_clusters same curr em) as [ks em1].
  specialize (IH em1 c).
  destruct (buckets_clusters same rest em1) as [ks' em']. cbn [fst] in *.
  intros [Hc|Hc]%elem_of_app.
  - destruct (Hcurr Hc) as (i & ms & H). exists curr, i, ms. split; [by left|done].
  - destruct (IH Hc) as (curr' & i & ms & Hin & H). exists curr', i, ms.
    split; [by right|done].
Qed.



End more_clusters.



Lemma FindDups_clusters dir_path entries w :
  NoDup (walk entries).*1 →
  ∃ this' w' ks,
    FindDups dir_path (Listing entries) FileUtils_new w = Some (Returned this', w')
    ∧ clusters (trace w') = clusters (trace w) ++ ks
    ∧ (∀ k, bucket this' k = bucket_of k (walk entries))
    ∧ (∀ k, k ∈ matching_keys this' ↔ 1 < length (bucket_of k (walk entries)))
    ∧ ∃ keys, (∀ k, k ∈ keys ↔ k ∈ matching_keys this') ∧ NoDup keys
        ∧ ks = (buckets_clusters (Equal (files w))
                  (map (λ k, bucket_of k (walk entries)) keys) ∅).1.
Proof.
  intros Hnd.
  destruct (FindDups_spec dir_path entries w)
    as (this' & w' & cs & ks & Hrun & Hev & Hb & Hmk & _ & Hks).
  exists this', w', ks. split_and!; [done|apply Hev|done|done|].
  eexists. split_and!; [| |exact (Hks Hnd)].
  - intros k. rewrite elem_of_set_iteration, Hmk. apply BuildFileMap_keys.
  - apply NoDup_set_iteration.
Qed.


(** Every cluster [FindDups] prints is led by a path [i] and followed by at
    least one other path; all of them lie in one bucket of a matching key and
    each follower was judged equal to [i] by [CompareFiles]. *)
Theorem clusters_have_representative dir_path entries w :
  NoDup (walk entries).*1 →
  ∃ this' w' ks,
    FindDups dir_path (Listing entries) FileUtils_new w = Some (Returned this', w')
    ∧ clusters (trace w') = clusters (trace w) ++ ks
    ∧ ∀ c, c ∈ ks →
        ∃ k i ms, c = i :: ms ∧ ms ≠ []
                  ∧ k ∈ matching_keys this' ∧ i ∈ bucket this' k
                  ∧ ∀ j, j ∈ ms → j ∈ bucket this' k ∧ verdict w i j = true.
Proof.
  intros Hnd.
  destruct (FindDups_clusters dir_path entries w Hnd)
    as (this' & w' & ks & Hrun & Hcl & Hb & Hmk & keys & Hkeys & _ & ->).
  eexists this', w', _. split; [done|]. split; [done|].
  intros c Hc.
  apply buckets_clusters_shape in Hc as (curr & i & ms & Hcurr & -> & Hne & Hi & Hms).
  apply list_elem_of_fmap in Hcurr as (k & -> & Hk).
  exists k, i, ms. rewrite Hb. split_and!; [done|done|by apply Hkeys|done|].
  intros j Hj. rewrite verdict_Equal. by apply Hms.
Qed.

Lemma clusters_have_representative_witness :
  NoDup (walk nested_tree).*1
  ∧ ∃ this' w' ks,
      FindDups "r" (Listing nested_tree) FileUtils_new nested_world = Some (Returned this', w')
      ∧ clusters (trace w') = clusters (trace nested_world) ++ ks
      ∧ ∀ c, c ∈ ks →
          ∃ k i ms, c = i :: ms ∧ ms ≠ []
                    ∧ k ∈ matching_keys this' ∧ i ∈ bucket this' k
                    ∧ ∀ j, j ∈ ms → j ∈ bucket this' k
                                    ∧ verdict nested_world i j = true.
Proof.
  assert (H : NoDup (walk nested_tree).*1) by (apply (bool_decide_unpack _); reflexivity).
  split; [exact H|].
  exact (clusters_have_representative "r" nested_tree nested_world H).
Defined.

(** Soundness of the report: when every size fits an [int] and every file is
    as long as [file_size] said, each printed cluster has at least two paths
    and all its paths hold the same bytes. *)
Theorem cluster_members_identical dir_path entries w :
  NoDup (walk entries).*1 → sizes_truthful w (walk entries) →
  ∃ this' w' ks,
    FindDups dir_path (Listing entries) FileUtils_new w = Some (Returned this', w')
    ∧ clusters (trace w') = clusters (trace w) ++ ks
    ∧ ∀ c, c ∈ ks → 2 ≤ length c ∧ ∃ d, ∀ p, p ∈ c → files w !! p = Some d.
Proof.
  intros Hnd Hsz.
  destruct (FindDups_clusters dir_path entries w Hnd)
    as (this' & w' & ks & Hrun & Hcl & Hb & Hmk & keys & Hkeys & _ & ->).
  eexists this', w', _. split; [done|]. split; [done|].
  intros c Hc.
  apply buckets_clusters_shape in Hc as (curr & i & ms & Hcurr & -> & Hne & Hi & Hms).
  apply list_elem_of_fmap in Hcurr as (k & -> & Hk).
  split; [destruct ms; [done|simpl; lia]|].
  assert (Hread : ∀ j, j ∈ ms → ∃ di, files w !! i = Some di ∧ files w !! j = Some di).
  { intros j Hj. destruct (Hms j Hj) as [Hjk Hij].
    unfold Equal in Hij.
    destruct (files w !! i) as [di|] eqn:Ei; [|done].
    destruct (files w !! j) as [dj|] eqn:Ej; [|done].
    apply elem_of_bucket_of in Hi as (si & Hsi & Hki), Hjk as (sj & Hsj & Hkj).
    destruct (Hsz i si Hsi) as [Hmi Hli], (Hsz j sj Hsj) as [Hmj Hlj].
    rewrite key_of_small in Hki by lia. rewrite key_of_small in Hkj by lia.
    specialize (Hli di Ei). specialize (Hlj dj Ej).
    assert (Hlen : length di = length dj) by lia.
    pose proof (Equal_same_length (files w) i j di dj Ei Ej Hlen) as He.
    unfold Equal in He. rewrite Ei, Ej, Hij in He.
    symmetry in He. apply bool_decide_eq_true in He as ->. by exists dj. }
  destruct ms as [|m ms]; [done|].
  destruct (Hread m ltac:(by left)) as (d & Hd & _). exists d.
  intros p [->|Hp]%elem_of_cons; [done|].
  destruct (Hread p Hp) as (d' & Hd' & Hp'). congruence.
Qed.

Lemma nested_sizes_truthful : sizes_truthful nested_world (walk nested_tree).
Proof.
  intros p s Hin. apply list_elem_of_In in Hin. simpl in Hin.
  destruct Hin as [[= <- <-]|[[= <- <-]|[[= <- <-]|[[= <- <-]|[]]]]];
    (split; [lia|]); intros d Hd; vm_compute in Hd; by injection Hd as <-.
Qed.

Lemma cluster_members_identical_witness :
  NoDup (walk nested_tree).*1 ∧ sizes_truthful nested_world (walk nested_tree)
  ∧ ∃ this' w' ks,
      FindDups "r" (Listing nested_tree) FileUtils_new nested_world = Some (Returned this', w')
      ∧ clusters (trace w') = clusters (trace nested_world) ++ ks
      ∧ ∀ c, c ∈ ks →
          2 ≤ length c ∧ ∃ d, ∀ p, p ∈ c → files nested_world !! p = Some d.
Proof.
  assert (H : NoDup (walk nested_tree).*1) by (apply (bool_decide_unpack _); reflexivity).
  split; [exact H|]. split; [exact nested_sizes_truthful|].
  exact (cluster_members_identical "r" nested_tree nested_world H nested_sizes_truthful).
Defined.



Lemma CompareMatchingKeys_x_file_map : ∀ keys this em w this' em' w',
  CompareMatchingKeys_x keys this em w = Some ((this', em'), w') →
  map_built this' = map_built this
  ∧ matching_keys this' = matching_keys this
  ∧ ∀ k, file_map this' !! k
         = match file_map this !! k with
           | Some l => Some l
           | None => if decide (k ∈ keys) then Some [] else None
           end.
Proof.
  induction keys as [|x keys IH]; intros this em w this' em' w'.
  { intros [= <- _ _]. split_and!; [done..|]. intros k.
    rewrite decide_False by apply not_elem_of_nil. by destruct (file_map this !! k). }
  cbn [CompareMatchingKeys_x].
  destruct (CompareMatchingKeys_i_spec (default [] (file_map this !! x)) em w)
    as (em1 & w1 & cs1 & ks1 & Hrun1 & _).
  rewrite (bind_Some _ _ _ _ _ Hrun1).
  intros Hrun. apply IH in Hrun as (Hb & Hmk & Hfm). cbn in Hb, Hmk.
  split_and!; [done..|]. intros k. rewrite Hfm. cbn [file_map].
  destruct (decide (x = k)) as [->|Hne].
  - rewrite lookup_insert_eq. destruct (file_map this !! k); [done|].
    simpl. rewrite decide_True; [done|by left].
  - rewrite lookup_insert_ne by done. destruct (file_map this !! k); [done|].
    destruct (decide (k ∈ keys)) as [Hk|Hk].
    + rewrite decide_True; [done|by right].
    + rewrite decide_False; [done|]. by intros [?|?]%elem_of_cons.
Qed.


(** [file_map[x]] in [CompareMatchingKeys] default-constructs the bucket of a
    matching key that has none: such a key gets an empty bucket, every other
    entry of [file_map] is as before, and [map_built] and [matching_keys] are
    not touched. *)
Theorem CompareMatchingKeys_default_constructs_missing_buckets this w :
  ∃ this' w',
    CompareMatchingKeys this w = Some (this', w')
    ∧ map_built this' = map_built this
    ∧ matching_keys this' = matching_keys this
    ∧ ∀ k, file_map this' !! k
           = match file_map this !! k with
             | Some l => Some l
             | None => if decide (k ∈ matching_keys this) then Some [] else None
             end.
Proof.
  destruct (CompareMatchingKeys_spec this w)
    as (this' & w' & cs & ks & Hrun & _).
  exists this', w'. split; [done|].
  revert Hrun. unfold CompareMatchingKeys.
  unfold mbind at 1, M_bind at 1, print_cout, modify. cbn beta iota.
  unfold mbind, M_bind, mret, M_ret.
  destruct (CompareMatchingKeys_x _ _ _ _) as [[[this1 em1] w1]|] eqn:Hx; [|done].
  intros [= <- <-].
  apply CompareMatchingKeys_x_file_map in Hx as (Hb & Hmk & Hfm).
  split_and!; [done..|]. intros k. rewrite Hfm.
  destruct (file_map this !! k); [done|].
  destruct (decide (k ∈ matching_keys this)) as [Hk|Hk].
  - rewrite decide_True; [done|]. by apply elem_of_set_iteration.
  - rewrite decide_False; [done|]. by rewrite elem_of_set_iteration.
Qed.

(** ** PrintMapStats *)

Lemma to_int_add_l a b : to_int (to_int a + b) = to_int (a + b)%Z.
Proof.
  unfold to_int. f_equal.
  replace ((a + 2 ^ 31) mod 2 ^ 32 - 2 ^ 31 + b + 2 ^ 31)%Z
    with ((a + 2 ^ 31) mod 2 ^ 32 + b)%Z by lia.
  rewrite Zplus_mod_idemp_l. f_equal. lia.
Qed.

Lemma to_int_small z : (- 2 ^ 31 ≤ z < 2 ^ 31)%Z → to_int z = z.
Proof. unfold to_int. intros H. Z.div_mod_to_equations. lia. Qed.

Lemma PrintMapStats_loop_count l : ∀ n t,
  (foldl (λ '(num_files, total_size) x,
           (to_int (num_files + Z.of_nat (length x.2)),
            (total_size + (Z2Qc x.1 * Z2Qc (Z.of_nat (length x.2)))
                          / Z2Qc (Z.shiftl 1 20))%Qc))
        (to_int n, t) l).1
  = to_int (n + count_total l).
Proof.
  induction l as [|x l IH]; intros n t; simpl.
  - f_equal. lia.
  - rewrite to_int_add_l, IH. f_equal. lia.
Qed.

Lemma count_total_perm l1 l2 : l1 ≡ₚ l2 → count_total l1 = count_total l2.
Proof.
  induction 1 as [|x l1 l2 _ IH|x y l|l1 l2 l3 _ IH1 _ IH2]; simpl; lia.
Qed.

Lemma count_total_file path fsize this :
  count_total (map_to_list (file_map (BuildFileMap_file path fsize this)))
  = (count_total (map_to_list (file_map this)) + 1)%Z.
Proof.
  assert (Hfm : file_map (BuildFileMap_file path fsize this)
                = <[key_of fsize := bucket this (key_of fsize) ++ [path]]> (file_map this)).
  { unfold BuildFileMap_file. by case_bool_decide. }
  rewrite Hfm. unfold bucket.
  destruct (file_map this !! key_of fsize) as [b|] eqn:Hb; simpl.
  - rewrite <- insert_delete_eq.
    rewrite (count_total_perm _ _ (map_to_list_insert _ _ _ (lookup_delete_eq _ _))).
    rewrite <- (count_total_perm _ _ (map_to_list_delete _ _ _ Hb)).
    simpl. rewrite length_app. simpl. lia.
  - rewrite (count_total_perm _ _ (map_to_list_insert _ _ _ Hb)). simpl. lia.
Qed.

Lemma count_total_files fl : ∀ this,
  count_total (map_to_list (file_map (index_files fl this)))
  = (count_total (map_to_list (file_map this)) + Z.of_nat (length fl))%Z.
Proof.
  induction fl as [|[path fsize] fl IH]; intros this; [simpl; lia|].
  change (index_files ((path, fsize) :: fl) this)
    with (index_files fl (BuildFileMap_file path fsize this)).
  rewrite IH, count_total_file. simpl length. lia.
Qed.

Lemma count_total_walk entries this :
  count_total (map_to_list (file_map (BuildFileMap_entries entries this)))
  = (count_total (map_to_list (file_map this)) + Z.of_nat (length (walk entries)))%Z.
Proof.
  pose proof (BuildFileMap_entries_walk entries this) as Hs.
  assert (Hfm : file_map (BuildFileMap_entries entries this)
                = file_map (index_files (walk entries) this))
    by (by injection Hs).
  by rewrite Hfm, count_total_files.
Qed.

(** What [PrintMapStats] prints for any index: the number of filed paths as
    an [int], and the sum of key times bucket length over 2^20. *)
Lemma PrintMapStats_index this w :
  PrintMapStats this w
  = Some (tt, World (files w) (handles w)
            (cout w ++ [Str "-- Stats -- \n";
                        Str "Number of files scanned: ";
                        Num (to_int (count_total (map_to_list (file_map this)))); Endl;
                        Str "Total data compared:     ";
                        Dbl (Z2Qc (index_total (map_to_list (file_map this)))
                             / Z2Qc 1048576)%Qc;
                        Str "MB"; Endl])
            (cerr w) (trace w)).
Proof.
  unfold PrintMapStats.
  set (l := map_to_list (file_map this)).
  pose proof (PrintMapStats_loop_count l 0 (Z2Qc 0)) as Hc.
  pose proof (PrintMapStats_loop_total l 0%Z (Z2Qc 0)) as Ht.
  change (to_int 0) with 0%Z in Hc.
  fold (PrintMapStats_loop l) in Hc, Ht.
  destruct (PrintMapStats_loop l) as [num_files total_size].
  cbn [fst snd] in Hc, Ht. subst num_files total_size.
  change (Z.shiftl 1 20) with 1048576%Z. change (Z2Qc 0) with 0%Qc.
  rewrite Qcplus_0_l. reflexivity.
Qed.

Lemma count_total_built entries :
  count_total (map_to_list (file_map (BuildFileMap_entries entries FileUtils_new)))
  = Z.of_nat (length (walk entries)).
Proof.
  rewrite count_total_walk. cbn [file_map FileUtils_new].
  by rewrite map_to_list_empty.
Qed.

(** After [BuildFileMap] on a fresh object [PrintMapStats] reports every
    regular file of the walk, also those never compared: the count is the
    number of files of the walk as an [int] (exact up to 2^31 - 1 files), and
    the total is the sum of the [int] keys of the files over 2^20.  It opens
    no file and writes nothing to [std::cerr]. *)
Theorem PrintMapStats_reports_walk entries w :
  PrintMapStats (BuildFileMap_entries entries FileUtils_new) w
  = Some (tt, World (files w) (handles w)
            (cout w ++ [Str "-- Stats -- \n";
                        Str "Number of files scanned: ";
                        Num (to_int (Z.of_nat (length (walk entries)))); Endl;
                        Str "Total data compared:     ";
                        Dbl (Z2Qc (keys_total (walk entries)) / Z2Qc 1048576)%Qc;
                        Str "MB"; Endl])
            (cerr w) (trace w))
  ∧ ((Z.of_nat (length (walk entries)) ≤ 2147483647)%Z →
     to_int (Z.of_nat (length (walk entries))) = Z.of_nat (length (walk entries))).
Proof.
  split.
  - by rewrite PrintMapStats_index, count_total_built, index_total_walk.
  - intros H. apply to_int_small. lia.
Qed.

Lemma PrintMapStats_reports_walk_witness :
  (Z.of_nat (length (walk three_files)) ≤ 2147483647)%Z
  ∧ PrintMapStats (BuildFileMap_entries three_files FileUtils_new) three_files_world
    = Some (tt, World (files three_files_world) (handles three_files_world)
              (cout three_files_world
               ++ [Str "-- Stats -- \n";
                   Str "Number of files scanned: ";
                   Num (to_int (Z.of_nat (length (walk three_files)))); Endl;
                   Str "Total data compared:     ";
                   Dbl (Z2Qc (keys_total (walk three_files)) / Z2Qc 1048576)%Qc;
                   Str "MB"; Endl])
              (cerr three_files_world) (trace three_files_world))
  ∧ to_int (Z.of_nat (length (walk three_files))) = Z.of_nat (length (walk three_files)).
Proof.
  assert (H : (Z.of_nat (length (walk three_files)) ≤ 2147483647)%Z)
    by (vm_compute; discriminate).
  split; [exact H|].
  destruct (PrintMapStats_reports_walk three_files three_files_world) as [H1 H2].
  split; [exact H1|exact (H2 H)].
Defined.

(** ** What a run prints *)

Lemma render_matches_false i ms :
  render_matches false i ms = flat_map (render_match false i) ms.
Proof. by destruct ms. Qed.

Lemma CompareMatchingKeys_j_cout i : ∀ js em fm mf pr w r w',
  i ∉ em → i ∉ js →
  is_Some (files w !! i) → (∀ j, j ∈ js → is_Some (files w !! j)) →
  CompareMatchingKeys_j i js em fm mf pr w = Some (r, w') →
  cout w' = cout w ++ render_matches fm i (filter (λ j, Equal (files w) i j = true) js)
  ∧ handles w' = handles w.
Proof.
  induction js as [|j js IH]; intros em fm mf pr w r w' Hem Hjs Hi Hread.
  { intros [= _ <-]. by rewrite app_nil_r. }
  apply not_elem_of_cons in Hjs as [Hij Hjs].
  cbn [CompareMatchingKeys_j]. rewrite decide_False by done.
  destruct (CompareFiles_spec i j w) as (rs & _ & Hcmp).
  rewrite (bind_Some _ _ _ _ _ Hcmp). clear Hcmp.
  destruct Hi as [di Hdi]. destruct (Hread j ltac:(by left)) as [dj Hdj].
  assert (Hl : leaked (files w) i j = []) by (unfold leaked; by rewrite Hdi, Hdj).
  assert (Hc : complaint (files w) i j = []) by (unfold complaint; by rewrite Hdi, Hdj).
  rewrite Hl, Hc, app_nil_r. cbn [app].
  destruct (Equal (files w) i j) eqn:Hsame.
  - rewrite filter_cons_True by done.
    intros Hrun.
    assert (Hrun' : ∃ mf' pr',
      CompareMatchingKeys_j i js ({[j]} ∪ em) false mf' pr'
        (World (files w) (handles w) (cout w ++ render_match fm i j) (cerr w)
               ((trace w ++ EvCompare i j :: rs) ++ [EvInsert j])) = Some (r, w')).
    { revert Hrun. unfold render_match.
      unfold mbind, M_bind, mret, M_ret, print_cout, log, modify.
      destruct fm; cbn -[CompareMatchingKeys_j]; eauto. }
    destruct Hrun' as (mf' & pr' & Hrun').
    apply IH in Hrun' as [-> ->]; cbn [files]; [|set_solver|done|by eexists|].
    + cbn [cout handles]. by rewrite <- app_assoc, render_matches_false.
    + intros j' Hj'. apply Hread. by right.
  - rewrite filter_cons_False by (rewrite Hsame; done).
    intros Hrun. apply IH in Hrun as [-> ->]; cbn [files]; [done..|by eexists|].
    intros j' Hj'. apply Hread. by right.
Qed.

Lemma CompareMatchingKeys_i_cout : ∀ curr em w em' w',
  NoDup curr → (∀ p, p ∈ curr → is_Some (files w !! p)) →
  CompareMatchingKeys_i curr em w = Some (em', w') →
  cout w' = cout w
            ++ flat_map render_cluster (bucket_clusters (Equal (files w)) curr em).1
  ∧ handles w' = handles w.
Proof.
  induction curr as [|i rest IH]; intros em w em' w' Hnd Hread.
  { intros [= _ <-]. by rewrite app_nil_r. }
  apply NoDup_cons in Hnd as [Hi Hnd].
  cbn [CompareMatchingKeys_i bucket_clusters].
  destruct (CompareMatchingKeys_j_spec i rest em true false [] w)
    as ([[[em1 fm1] mf1] pr1] & w1 & cs1 & Hrun1 & Hev1 & _ & Hskip & Hex).
  rewrite (bind_Some _ _ _ _ _ Hrun1). cbn beta iota.
  assert (Hf1 : files w1 = files w) by apply Hev1.
  assert (Hread' : ∀ p, p ∈ rest → is_Some (files w !! p)).
  { intros p Hp. apply Hread. by right. }
  destruct (decide (i ∈ em)) as [Hin|Hout].
  { destruct (Hskip Hin) as [[= -> -> -> ->] ->].
    unfold mbind at 1, M_bind at 1, mret at 1, M_ret at 1. cbn beta iota.
    by apply IH. }
  destruct (Hex Hout Hi) as [Hr _].
  destruct (CompareMatchingKeys_j_cout i rest em true false [] w _ w1 Hout Hi
              (Hread i ltac:(by left)) Hread' Hrun1) as [Hc1 Hh1].
  unfold j_outcome in Hr.
  destruct (filter (λ j, Equal (files w) i j = true) rest) as [|m ms] eqn:Hms.
  - injection Hr as -> -> -> ->.
    unfold mbind at 1, M_bind at 1, mret at 1, M_ret at 1. cbn beta iota.
    intros Hrun. apply IH in Hrun as [-> ->]; [|done|by rewrite Hf1].
    rewrite Hf1, Hc1, Hh1. cbn [render_matches]. by rewrite app_nil_r.
  - injection Hr as -> -> -> ->.
    unfold mbind at 1, M_bind at 1. unfold mbind at 1, M_bind at 1.
    unfold mbind at 1, M_bind at 1. unfold mbind at 1, M_bind at 1.
    unfold print_cout, log, modify, mret, M_ret. cbn beta iota.
    intros Hrun. apply IH in Hrun as [-> ->]; cbn [files]; [|done|by rewrite Hf1].
    cbn [cout handles]. rewrite Hf1, Hc1, Hh1.
    destruct (bucket_clusters _ rest _) as [ks em0]. cbn [fst flat_map render_cluster].
    cbn [render_matches]. by rewrite <- !app_assoc.
Qed.

Lemma CompareMatchingKeys_x_cout : ∀ keys this em w this' em' w',
  (∀ k, k ∈ keys → NoDup (bucket this k)) →
  (∀ k p, k ∈ keys → p ∈ bucket this k → is_Some (files w !! p)) →
  CompareMatchingKeys_x keys this em w = Some ((this', em'), w') →
  cout w' = cout w
            ++ flat_map render_cluster
                 (buckets_clusters (Equal (files w)) (map (bucket this) keys) em).1
  ∧ handles w' = handles w.
Proof.
  induction keys as [|x keys IH]; intros this em w this' em' w' Hnd Hread.
  { intros [= _ _ <-]. by rewrite app_nil_r. }
  cbn [CompareMatchingKeys_x map buckets_clusters]. fold (bucket this x).
  set (this1 := mkFileUtils _ _ _).
  destruct (CompareMatchingKeys_i_spec (bucket this x) em w)
    as (em1 & w1 & cs1 & ks1 & Hrun1 & Hev1 & _ & Hex1).
  rewrite (bind_Some _ _ _ _ _ Hrun1).
  assert (Hndx : NoDup (bucket this x)) by (apply Hnd; by left).
  destruct (CompareMatchingKeys_i_cout _ _ _ _ _ Hndx
              (λ p Hp, Hread x p ltac:(by left) Hp) Hrun1) as [Hc1 Hh1].
  specialize (Hex1 Hndx). rewrite <- Hex1 in *. cbn [fst] in Hc1.
  assert (Hf : files w1 = files w) by apply Hev1.
  assert (Hm : map (bucket this1) keys = map (bucket this) keys).
  { apply map_ext. intros k. apply bucket_touch. }
  intros Hrun. apply IH in Hrun as [-> ->].
  - rewrite Hf, Hm, Hc1, Hh1.
    destruct (buckets_clusters _ _ em1) as [ks' em2]. cbn [fst].
    by rewrite flat_map_app, <- app_assoc.
  - intros k Hk. unfold this1. rewrite bucket_touch. apply Hnd. by right.
  - intros k p Hk. unfold this1. rewrite bucket_touch, Hf. apply Hread. by right.
Qed.

(** The run of [FindDups] on an existing root, stage by stage. *)
Lemma FindDups_run dir_path entries w :
  let this := BuildFileMap_entries entries FileUtils_new in
  let w0 := World (files w) (handles w) (cout w ++ [Str "Matching Files: \n"])
                  (cerr w) (trace w) in
  ∃ em' w1 w' cs ks,
    CompareMatchingKeys_x (set_iteration (matching_keys this)) this ∅ w0
    = Some ((this, em'), w1)
    ∧ evolves w0 w1 cs ks
    ∧ PrintMapStats this w1 = Some (tt, w')
    ∧ FindDups dir_path (Listing entries) FileUtils_new w = Some (Returned this, w').
Proof.
  intros this w0.
  destruct (CompareMatchingKeys_x_spec (set_iteration (matching_keys this)) this ∅ w0)
    as (this' & em' & w1 & cs & ks & Hrun & Hev & _).
  pose proof (CompareMatchingKeys_x_file_map _ _ _ _ _ _ _ Hrun) as (Hb & Hmk & Hfm).
  assert (Heq : this' = this).
  { assert (Hmap : file_map this' = file_map this).
    { apply map_eq. intros k. rewrite Hfm.
      destruct (file_map this !! k) as [l|] eqn:Hk; [done|].
      rewrite decide_False; [done|]. rewrite elem_of_set_iteration.
      unfold this. rewrite BuildFileMap_keys.
      rewrite <- BuildFileMap_bucket. unfold bucket. fold this. rewrite Hk. simpl. lia. }
    destruct this', this. simpl in *. congruence. }
  subst this'.
  destruct (PrintMapStats_evolves this w1) as (w' & Hrun' & _).
  exists em', w1, w', cs, ks. split_and!; [done..|].
  unfold FindDups, BuildFileMap.
  unfold mbind at 1, M_bind at 1, mret at 1, M_ret at 1. cbn beta iota.
  fold this. unfold CompareMatchingKeys.
  unfold mbind at 2, M_bind at 2, print_cout, modify. 
  unfold mbind, M_bind, mret, M_ret. fold w0. by rewrite Hrun, Hrun'.
Qed.


(** What a run prints when the paths of the walk are distinct and every file
    can be opened: the header, then every cluster as [[ i,] followed by its
    other paths one per line, separated by commas and closed by [ ]] and an
    empty line, then the statistics; and no stream stays open. *)
Theorem FindDups_output dir_path entries w :
  NoDup (walk entries).*1 →
  (∀ p s, (p, s) ∈ walk entries → is_Some (files w !! p)) →
  ∃ this' w' ks,
    FindDups dir_path (Listing entries) FileUtils_new w = Some (Returned this', w')
    ∧ clusters (trace w') = clusters (trace w) ++ ks
    ∧ cout w' = cout w ++ [Str "Matching Files: \n"]
                ++ flat_map render_cluster ks
                ++ [Str "-- Stats -- \n";
                    Str "Number of files scanned: ";
                    Num (to_int (Z.of_nat (length (walk entries)))); Endl;
                    Str "Total data compared:     ";
                    Dbl (Z2Qc (keys_total (walk entries)) / Z2Qc 1048576)%Qc;
                    Str "MB"; Endl]
    ∧ handles w' = handles w.
Proof.
  intros Hnd Hread.
  destruct (FindDups_run dir_path entries w)
    as (em' & w1 & w' & cs & ks & Hx & Hev & Hstats & Hrun).
  set (this := BuildFileMap_entries entries FileUtils_new) in *.
  assert (Hndb : ∀ k, k ∈ set_iteration (matching_keys this) → NoDup (bucket this k)).
  { intros k _. unfold this. rewrite BuildFileMap_bucket. by apply bucket_of_NoDup. }
  pose proof (CompareMatchingKeys_x_spec (set_iteration (matching_keys this)) this ∅
                (World (files w) (handles w) (cout w ++ [Str "Matching Files: \n"])
                       (cerr w) (trace w)))
    as (this2 & em2 & w2 & cs2 & ks2 & Hx2 & Hev2 & _ & _ & _ & Hks2).
  rewrite Hx in Hx2. injection Hx2 as <- <- <-.
  specialize (Hks2 Hndb). cbn [files] in Hks2.
  apply CompareMatchingKeys_x_cout in Hx as [Hc Hh]; [|done|].
  - cbn [files cout handles] in Hc, Hh. rewrite <- Hks2 in Hc. cbn [fst] in Hc.
    exists this, w', ks2. split; [done|].
    unfold this in Hstats.
    rewrite PrintMapStats_index, count_total_built, index_total_walk in Hstats.
    injection Hstats as <-. cbn [trace cout handles].
    split_and!; [apply Hev2| |done].
    rewrite Hc. by rewrite <- !app_assoc.
  - cbn [files]. intros k p _ Hp. unfold this in Hp.
    rewrite BuildFileMap_bucket in Hp.
    apply elem_of_bucket_of in Hp as (s & Hs & _). by apply (Hread p s).
Qed.

Lemma nested_readable :
  ∀ p s, (p, s) ∈ walk nested_tree → is_Some (files nested_world !! p).
Proof.
  intros p s Hin. apply list_elem_of_In in Hin. simpl in Hin.
  destruct Hin as [[= <- <-]|[[= <- <-]|[[= <- <-]|[[= <- <-]|[]]]]]; by eexists.
Qed.

Lemma FindDups_output_witness :
  NoDup (walk nested_tree).*1
  ∧ (∀ p s, (p, s) ∈ walk nested_tree → is_Some (files nested_world !! p))
  ∧ ∃ this' w' ks,
      FindDups "r" (Listing nested_tree) FileUtils_new nested_world = Some (Returned this', w')
      ∧ clusters (trace w') = clusters (trace nested_world) ++ ks
      ∧ cout w' = cout nested_world ++ [Str "Matching Files: \n"]
                  ++ flat_map render_cluster ks
                  ++ [Str "-- Stats -- \n";
                      Str "Number of files scanned: ";
                      Num (to_int (Z.of_nat (length (walk nested_tree)))); Endl;
                      Str "Total data compared:     ";
                      Dbl (Z2Qc (keys_total (walk nested_tree)) / Z2Qc 1048576)%Qc;
                      Str "MB"; Endl]
      ∧ handles w' = handles nested_world.
Proof.
  assert (H : NoDup (walk nested_tree).*1) by (apply (bool_decide_unpack _); reflexivity).
  split; [exact H|]. split; [exact nested_readable|].
  exact (FindDups_output "r" nested_tree nested_world H nested_readable).
Defined.

(** ** The comparisons of a run *)

Lemma elem_of_ordered_pairs l a b :
  (a, b) ∈ ordered_pairs l ↔ ∃ n m, n < m ∧ l !! n = Some a ∧ l !! m = Some b.
Proof.
  induction l as [|i rest IH]; simpl.
  { split; [by intros ?%elem_of_nil|]. by intros (n & m & _ & ? & _). }
  rewrite elem_of_app, IH. split.
  - intros [Hin|(n & m & Hnm & Hn & Hm)].
    + apply list_elem_of_fmap in Hin as (j & [= -> ->] & Hj).
      apply list_elem_of_lookup in Hj as [m Hm]. exists 0, (S m).
      split_and!; [lia|done..].
    + exists (S n), (S m). split_and!; [lia|done..].
  - intros (n & m & Hnm & Hn & Hm). destruct m as [|m]; [lia|]. simpl in Hm.
    destruct n as [|n]; simpl in Hn.
    + injection Hn as ->. left. apply list_elem_of_fmap. exists b.
      split; [done|]. by apply list_elem_of_lookup_2 in Hm.
    + right. exists n, m. split_and!; [lia|done..].
Qed.

Lemma ordered_pairs_NoDup l : NoDup l → NoDup (ordered_pairs l).
Proof.
  induction 1 as [|i rest Hi Hnd IH]; simpl; [constructor|].
  apply NoDup_app. split_and!; [|  |done].
  - apply NoDup_fmap_2; [|done]. by intros x y [=].
  - intros [a b] Hin Hin'.
    apply list_elem_of_fmap in Hin as (j & [= -> ->] & _).
    apply elem_of_ordered_pairs in Hin' as (n & m & _ & Hn & _).
    apply Hi. by apply list_elem_of_lookup_2 in Hn.
Qed.

Lemma ordered_pairs_app l1 l2 :
  ordered_pairs l1 ++ ordered_pairs l2 `sublist_of` ordered_pairs (l1 ++ l2).
Proof.
  induction l1 as [|i l1 IH]; simpl; [done|].
  rewrite <- app_assoc. apply sublist_app; [|done].
  rewrite map_app. by apply sublist_inserts_r.
Qed.

Lemma ordered_pairs_concat bs :
  flat_map ordered_pairs bs `sublist_of` ordered_pairs (concat bs).
Proof.
  induction bs as [|b bs IH]; simpl; [done|].
  etrans; [|apply ordered_pairs_app]. by apply sublist_app.
Qed.

Lemma compared_app t1 t2 : compared (t1 ++ t2) = compared t1 ++ compared t2.
Proof. unfold compared. apply omap_app. Qed.

Lemma CompareMatchingKeys_i_pairs : ∀ curr em w em' w',
  NoDup curr →
  CompareMatchingKeys_i curr em w = Some (em', w') →
  ∃ cs, compared (trace w') = compared (trace w) ++ cs
        ∧ cs `sublist_of` ordered_pairs curr.
Proof.
  induction curr as [|i rest IH]; intros em w em' w' Hnd.
  { intros [= _ <-]. exists []. by rewrite app_nil_r. }
  apply NoDup_cons in Hnd as [Hi Hnd].
  cbn [CompareMatchingKeys_i ordered_pairs].
  destruct (CompareMatchingKeys_j_spec i rest em true false [] w)
    as ([[[em1 fm1] mf1] pr1] & w1 & cs1 & Hrun1 & Hev1 & _ & Hskip & Hex).
  rewrite (bind_Some _ _ _ _ _ Hrun1). cbn beta iota.
  pose (em2 := if mf1 then {[i]} ∪ em1 else em1).
  pose (w2 := if mf1
              then World (files w1) (handles w1) (cout w1 ++ [Str " ]"; Endl; Endl])
                         (cerr w1) ((trace w1 ++ [EvCluster pr1]) ++ [EvInsert i])
              else w1).
  assert (Hc2 : compared (trace w2) = compared (trace w1)).
  { unfold w2. destruct mf1; [|done]. cbn [trace].
    rewrite !compared_app. simpl. by rewrite !app_nil_r. }
  intros Hrun.
  assert (Hrun2 : CompareMatchingKeys_i rest em2 w2 = Some (em', w')).
  { rewrite <- Hrun. unfold em2, w2. by destruct mf1. }
  apply IH in Hrun2 as (cs2 & Hcs2 & Hsub2); [|done].
  exists (cs1 ++ cs2). split.
  - rewrite Hcs2, Hc2, (ev_compared _ _ _ _ Hev1). by rewrite app_assoc.
  - apply sublist_app; [|done].
    destruct (decide (i ∈ em)) as [Hin|Hout].
    + destruct (Hskip Hin) as [_ ->].
      pose proof (ev_compared _ _ _ _ Hev1) as He.
      rewrite <- (app_nil_r (compared (trace w))) in He at 1.
      apply app_inv_head in He as <-. apply sublist_nil_l.
    + by destruct (Hex Hout Hi) as [_ ->].
Qed.

Lemma CompareMatchingKeys_x_pairs : ∀ keys this em w this' em' w',
  (∀ k, k ∈ keys → NoDup (bucket this k)) →
  CompareMatchingKeys_x keys this em w = Some ((this', em'), w') →
  ∃ cs, compared (trace w') = compared (trace w) ++ cs
        ∧ cs `sublist_of` flat_map ordered_pairs (map (bucket this) keys).
Proof.
  induction keys as [|x keys IH]; intros this em w this' em' w' Hnd.
  { intros [= _ _ <-]. exists []. by rewrite app_nil_r. }
  cbn [CompareMatchingKeys_x map flat_map]. fold (bucket this x).
  set (this1 := mkFileUtils _ _ _).
  destruct (CompareMatchingKeys_i_spec (bucket this x) em w)
    as (em1 & w1 & cs1 & ks1 & Hrun1 & _).
  rewrite (bind_Some _ _ _ _ _ Hrun1).
  apply CompareMatchingKeys_i_pairs in Hrun1 as (cs1' & Hcs1 & Hsub1);
    [|apply Hnd; by left].
  assert (Hm : map (bucket this1) keys = map (bucket this) keys).
  { apply map_ext. intros k. apply bucket_touch. }
  intros Hrun. apply IH in Hrun as (cs2 & Hcs2 & Hsub2).
  - exists (cs1' ++ cs2). split; [by rewrite Hcs2, Hcs1, app_assoc|].
    rewrite Hm in Hsub2. by apply sublist_app.
  - intros k Hk. unfold this1. rewrite bucket_touch. apply Hnd. by right.
Qed.

(** When the paths of the walk are distinct, [FindDups] hands no pair of
    paths to [CompareFiles] twice, in either order, and no path with itself:
    every comparison is of a path with one filed later in the same bucket of
    a matching key. *)
Theorem no_pair_compared_twice dir_path entries w :
  NoDup (walk entries).*1 →
  ∃ this' w' cs,
    FindDups dir_path (Listing entries) FileUtils_new w = Some (Returned this', w')
    ∧ compared (trace w') = compared (trace w) ++ cs
    ∧ NoDup cs
    ∧ ∀ a b, (a, b) ∈ cs →
        a ≠ b ∧ ((b, a) ∉ cs)
        ∧ ∃ k n m, k ∈ matching_keys this' ∧ n < m
                   ∧ bucket this' k !! n = Some a ∧ bucket this' k !! m = Some b.
Proof.
  intros Hnd.
  destruct (FindDups_run dir_path entries w)
    as (em' & w1 & w' & cs0 & ks & Hx & _ & Hstats & Hrun).
  set (this := BuildFileMap_entries entries FileUtils_new) in *.
  set (keys := set_iteration (matching_keys this)) in *.
  assert (Hb : ∀ k, bucket this k = bucket_of k (walk entries))
    by (intros k; apply BuildFileMap_bucket).
  apply CompareMatchingKeys_x_pairs in Hx as (cs & Hcs & Hsub).
  2:{ intros k _. rewrite Hb. by apply bucket_of_NoDup. }
  cbn [trace] in Hcs.
  destruct (PrintMapStats_evolves this w1) as (w2 & Hrun2 & _ & Ht & _).
  rewrite Hrun2 in Hstats. injection Hstats as ->.
  assert (Hall : NoDup (concat (map (bucket this) keys))).
  { rewrite (map_ext _ (λ k, bucket_of k (walk entries))) by done.
    apply buckets_of_NoDup; [done|apply NoDup_set_iteration]. }
  pose proof (ordered_pairs_NoDup _ Hall) as Hnd2.
  assert (Hsub2 : cs `sublist_of` ordered_pairs (concat (map (bucket this) keys))).
  { etrans; [exact Hsub|apply ordered_pairs_concat]. }
  exists this, w', cs. split; [done|]. split; [by rewrite Ht|].
  split; [by eapply sublist_NoDup|].
  intros a b Hab.
  assert (Hab2 := Hab). eapply elem_of_sublist in Hab2; [|exact Hsub2].
  apply elem_of_ordered_pairs in Hab2 as (n & m & Hnm & Hn & Hm).
  split_and!.
  - intros ->. pose proof (NoDup_lookup _ _ _ _ Hall Hn Hm). lia.
  - intros Hba. assert (Hba2 := Hba). eapply elem_of_sublist in Hba2; [|exact Hsub2].
    apply elem_of_ordered_pairs in Hba2 as (n' & m' & Hnm' & Hn' & Hm').
    pose proof (NoDup_lookup _ _ _ _ Hall Hn Hm').
    pose proof (NoDup_lookup _ _ _ _ Hall Hm Hn'). lia.
  - assert (Hab3 := Hab). eapply elem_of_sublist in Hab3; [|exact Hsub].
    apply list_elem_of_In, in_flat_map in Hab3 as (curr & Hcurr & Hin).
    apply list_elem_of_In, list_elem_of_fmap in Hcurr as (k & -> & Hk).
    apply list_elem_of_In, elem_of_ordered_pairs in Hin as (n0 & m0 & H0 & Hn0 & Hm0).
    exists k, n0, m0. split_and!; [|done..].
    by apply elem_of_set_iteration in Hk.
Qed.

Lemma no_pair_compared_twice_witness :
  NoDup (walk nested_tree).*1
  ∧ ∃ this' w' cs,
      FindDups "r" (Listing nested_tree) FileUtils_new nested_world = Some (Returned this', w')
      ∧ compared (trace w') = compared (trace nested_world) ++ cs
      ∧ NoDup cs
      ∧ ∀ a b, (a, b) ∈ cs →
          a ≠ b ∧ ((b, a) ∉ cs)
          ∧ ∃ k n m, k ∈ matching_keys this' ∧ n < m
                     ∧ bucket this' k !! n = Some a ∧ bucket this' k !! m = Some b.
Proof.
  assert (H : NoDup (walk nested_tree).*1) by (apply (bool_decide_unpack _); reflexivity).
  split; [exact H|].
  exact (no_pair_compared_twice "r" nested_tree nested_world H).
Defined.

(** ** The order of the clusters *)

Lemma set_iteration_ascending s n m k1 k2 :
  n ≤ m → set_iteration s !! n = Some k1 → set_iteration s !! m = Some k2 →
  (k1 ≤ k2)%Z.
Proof.
  unfold set_iteration.
  pose proof (StronglySorted_merge_sort Z.le (elements s)) as Hs.
  revert n m. induction Hs as [|x l Hs IH Hx]; intros n m Hnm Hn Hm; [done|].
  destruct n as [|n], m as [|m]; simpl in *; try lia.
  - injection Hn as <-. injection Hm as <-. lia.
  - injection Hn as <-. rewrite Forall_forall in Hx. apply Hx.
    by apply list_elem_of_lookup_2 in Hm.
  - apply (IH n m); [lia|done..].
Qed.

Section cluster_order.
Variable same : string → string → bool.

Lemma buckets_clusters_order buckets : ∀ em n m c1 c2,
  n < m →
  (buckets_clusters same buckets em).1 !! n = Some c1 →
  (buckets_clusters same buckets em).1 !! m = Some c2 →
  ∃ i j b1 b2, i ≤ j ∧ buckets !! i = Some b1 ∧ buckets !! j = Some b2
               ∧ (∀ p, p ∈ c1 → p ∈ b1) ∧ (∀ p, p ∈ c2 → p ∈ b2).
Proof.
  assert (Hin : ∀ curr em c, c ∈ (bucket_clusters same curr em).1 →
                  ∀ p, p ∈ c → p ∈ curr).
  { intros curr em c Hc p Hp.
    apply bucket_clusters_shape in Hc as (i & ms & -> & _ & Hi & Hms).
    apply elem_of_cons in Hp as [->|Hp]; [done|]. by apply Hms. }
  induction buckets as [|curr rest IH]; intros em n m c1 c2 Hnm; [done|].
  cbn [buckets_clusters].
  pose proof (Hin curr em) as Hcurr.
  destruct (bucket_clusters same curr em) as [ks em1]. cbn [fst] in Hcurr.
  pose proof (IH em1) as IH'.
  pose proof (buckets_clusters_shape same rest em1) as Hrest.
  destruct (buckets_clusters same rest em1) as [ks' em']. cbn [fst] in *.
  intros H1 H2.
  destruct (decide (m < length ks)) as [Hm|Hm].
  - rewrite lookup_app_l in H1, H2 by lia.
    exists 0, 0, curr, curr. split_and!; [lia|done|done| |].
    + apply Hcurr. by apply list_elem_of_lookup_2 in H1.
    + apply Hcurr. by apply list_elem_of_lookup_2 in H2.
  - rewrite lookup_app_r in H2 by lia.
    destruct (decide (n < length ks)) as [Hn|Hn].
    + rewrite lookup_app_l in H1 by lia.
      apply list_elem_of_lookup_2, Hrest in H2
        as (b2 & i2 & ms2 & Hb2 & -> & _ & Hi2 & Hms2).
      apply list_elem_of_lookup in Hb2 as [j Hj].
      exists 0, (S j), curr, b2. split_and!; [lia|done|done| |].
      * apply Hcurr. by apply list_elem_of_lookup_2 in H1.
      * intros p [->|Hp]%elem_of_cons; [done|]. by apply Hms2.
    + rewrite lookup_app_r in H1 by lia.
      destruct (IH' (n - length ks) (m - length ks) c1 c2 ltac:(lia) H1 H2)
        as (i & j & b1 & b2 & Hij & Hi & Hj & Hc1 & Hc2).
      exists (S i), (S j), b1, b2. split_and!; [lia|done..].
Qed.
End cluster_order.

(** The clusters come out in the order in which [std::set<int>] hands out the
    matching keys: a cluster printed earlier never holds a file whose key is
    greater than the key of a file of a cluster printed later. *)
Theorem clusters_in_ascending_key_order dir_path entries w :
  NoDup (walk entries).*1 →
  ∃ this' w' ks,
    FindDups dir_path (Listing entries) FileUtils_new w = Some (Returned this', w')
    ∧ clusters (trace w') = clusters (trace w) ++ ks
    ∧ ∀ n m c1 c2 p1 s1 p2 s2,
        n < m → ks !! n = Some c1 → ks !! m = Some c2 →
        p1 ∈ c1 → p2 ∈ c2 → (p1, s1) ∈ walk entries → (p2, s2) ∈ walk entries →
        (key_of s1 ≤ key_of s2)%Z.
Proof.
  intros Hnd.
  destruct (FindDups_spec dir_path entries w)
    as (this' & w' & cs & ks & Hrun & Hev & _ & _ & _ & Hks).
  exists this', w', ks. split; [done|]. split; [apply Hev|].
  specialize (Hks Hnd). subst ks.
  intros n m c1 c2 p1 s1 p2 s2 Hnm H1 H2 Hp1 Hp2 Hs1 Hs2.
  destruct (buckets_clusters_order _ _ _ _ _ _ _ Hnm H1 H2)
    as (i & j & b1 & b2 & Hij & Hi & Hj & Hc1 & Hc2).
  rewrite list_lookup_fmap in Hi, Hj.
  destruct (set_iteration _ !! i) as [k1|] eqn:Hk1; [|done].
  destruct (set_iteration _ !! j) as [k2|] eqn:Hk2; [|done].
  injection Hi as <-. injection Hj as <-.
  pose proof (set_iteration_ascending _ _ _ _ _ Hij Hk1 Hk2) as Hle.
  apply Hc1, elem_of_bucket_of in Hp1 as (s1' & Hs1' & <-).
  apply Hc2, elem_of_bucket_of in Hp2 as (s2' & Hs2' & <-).
  by rewrite (NoDup_fst_unique _ _ _ _ Hnd Hs1 Hs1'),
             (NoDup_fst_unique _ _ _ _ Hnd Hs2 Hs2').
Qed.

Lemma clusters_in_ascending_key_order_witness :
  NoDup (walk nested_tree).*1
  ∧ ∃ this' w' ks,
      FindDups "r" (Listing nested_tree) FileUtils_new nested_world = Some (Returned this', w')
      ∧ clusters (trace w') = clusters (trace nested_world) ++ ks
      ∧ ∀ n m c1 c2 p1 s1 p2 s2,
          n < m → ks !! n = Some c1 → ks !! m = Some c2 →
          p1 ∈ c1 → p2 ∈ c2 →
          (p1, s1) ∈ walk nested_tree → (p2, s2) ∈ walk nested_tree →
          (key_of s1 ≤ key_of s2)%Z.
Proof.
  assert (H : NoDup (walk nested_tree).*1) by (apply (bool_decide_unpack _); reflexivity).
  split; [exact H|].
  exact (clusters_in_ascending_key_order "r" nested_tree nested_world H).
Defined.
